(** * Spo: the search-result model and the interactive picker of [spo.py]

    A shallow embedding of [get_search_result_dict], [let_user_scroll] and
    the [search] branch of [main], with the properties of the result model
    and of the scrolling loop proved over it.

    Python values are modelled as follows.
    - [str] is [string]; the single character returned by [getch()] is an
      [ascii].
    - [int] is [Z] (Python integers do not wrap).
    - A list is a [list]; subscripting follows Python: indices in
      [-len, len) are accepted, negative ones count from the end, anything
      else raises [IndexError].
    - An [OrderedDict] is an association list in insertion order;
      assigning to a key that is present replaces the value in place and
      keeps the key's position.
    - An exception is the [Err] branch of [result]. *)

From Stdlib Require Import List ZArith String Ascii Bool Lia.
Import ListNotations.

Open Scope string_scope.
Open Scope Z_scope.

(* ================================================================= *)
(** ** Exceptions and the error monad *)

Inductive exn : Type :=
| KeyError (key : string)
| IndexError.

Inductive result (A : Type) : Type :=
| Ok (a : A)
| Err (e : exn).

Arguments Ok {A} a.
Arguments Err {A} e.

Definition bind {A B : Type} (r : result A) (k : A -> result B) : result B :=
  match r with
  | Ok a => k a
  | Err e => Err e
  end.

Notation "x <- r ;; k" := (bind r (fun x => k))
  (at level 61, r at next level, right associativity).

(* ================================================================= *)
(** ** Python lists *)

Definition len {A : Type} (l : list A) : Z := Z.of_nat (List.length l).

(** [l[i]] *)
Definition subscript {A : Type} (l : list A) (i : Z) : result A :=
  let j := if i <? 0 then i + len l else i in
  if (0 <=? j) && (j <? len l) then
    match nth_error l (Z.to_nat j) with
    | Some a => Ok a
    | None => Err IndexError
    end
  else Err IndexError.

(** [sep.join(l)] *)
Definition join (sep : string) (l : list string) : string :=
  String.concat sep l.

(* ================================================================= *)
(** ** The records of a search response

    The items of [search_data[search_type]['items']].  Every catalog object
    has a [uri] and a [name]; a track has [artists] and an [album], an album
    has [artists], an artist has neither.  A key that is absent is [None]
    and reading it raises [KeyError]. *)

Record artist : Type := { artist_name : string }.

Record album : Type := { album_name : string }.

Record item : Type := {
  uri : string;
  name : string;
  artists : option (list artist);
  item_album : option album
}.

(** [item['artists']] *)
Definition get_artists (it : item) : result (list artist) :=
  match artists it with
  | Some l => Ok l
  | None => Err (KeyError "artists")
  end.

(** [item['album']] *)
Definition get_album (it : item) : result album :=
  match item_album it with
  | Some a => Ok a
  | None => Err (KeyError "album")
  end.

(* ================================================================= *)
(** ** OrderedDict *)

Module OrderedDict.

Definition t (V : Type) : Type := list (string * V).

Definition empty {V : Type} : t V := [].

(** [d[k] = v] *)
Fixpoint setitem {V : Type} (d : t V) (k : string) (v : V) : t V :=
  match d with
  | [] => [(k, v)]
  | (k', v') :: d' =>
      if String.eqb k' k then (k', v) :: d'
      else (k', v') :: setitem d' k v
  end.

(** [d.get(k)] *)
Fixpoint get {V : Type} (d : t V) (k : string) : option V :=
  match d with
  | [] => None
  | (k', v') :: d' => if String.eqb k' k then Some v' else get d' k
  end.

(** [list(d.keys())] *)
Definition keys {V : Type} (d : t V) : list string := map fst d.

(** [list(d.values())] *)
Definition values {V : Type} (d : t V) : list V := map snd d.

(** [len(d)] *)
Definition size {V : Type} (d : t V) : Z := len d.

(** [bool(d)] *)
Definition truthy {V : Type} (d : t V) : bool :=
  match d with
  | [] => false
  | _ :: _ => true
  end.

End OrderedDict.

(** The result model: identifier to display fields. *)
Definition ResultModel : Type := OrderedDict.t (list string).

(* ================================================================= *)
(** ** [get_search_result_dict] *)

(** The body of the [for item in ...] loop: one assignment into
    [rtn_dict], selected by [search_type].  The list display on the right is
    evaluated left to right before the assignment. *)
Definition add_item (search_type : string) (rtn_dict : ResultModel) (it : item)
  : result ResultModel :=
  if String.eqb search_type "tracks" then
    l <- get_artists it ;;
    a <- subscript l 0 ;;
    al <- get_album it ;;
    Ok (OrderedDict.setitem rtn_dict (uri it)
          [name it; artist_name a; album_name al])
  else if String.eqb search_type "artists" then
    Ok (OrderedDict.setitem rtn_dict (uri it) [name it])
  else if String.eqb search_type "albums" then
    l <- get_artists it ;;
    a <- subscript l 0 ;;
    Ok (OrderedDict.setitem rtn_dict (uri it) [name it; artist_name a])
  else Ok rtn_dict.

Fixpoint add_items (search_type : string) (rtn_dict : ResultModel)
  (items : list item) : result ResultModel :=
  match items with
  | [] => Ok rtn_dict
  | it :: rest =>
      d <- add_item search_type rtn_dict it ;;
      add_items search_type d rest
  end.

(** [get_search_result_dict], given the items of the search response
    ([search_data[search_type]['items']]).  [Ok None] is Python's [None]. *)
Definition get_search_result_dict (items : list item) (search_type : string)
  : result (option ResultModel) :=
  match items with
  | _ :: _ =>
      d <- add_items search_type OrderedDict.empty items ;;
      Ok (Some d)
  | [] => Ok None
  end.

(** [list(results_array.keys())[index]] *)
Definition identifierAt (m : ResultModel) (index : Z) : result string :=
  subscript (OrderedDict.keys m) index.

(* ================================================================= *)
(** ** [let_user_scroll] *)

(** The calls made on the terminal through the [PrettyListCreator]:
    [reprint(s)] and [moveup(n)]. *)
Inductive term_event : Type :=
| Reprint (s : string)
| Moveup (n : Z).

(** One pass through the body of [while(True)], after [getch()] has
    returned [user_input]. *)
Inductive step_result : Type :=
| Continue (index : Z) (out : list term_event)
| Return (v : option string) (out : list term_event)
| Raise (e : exn) (out : list term_event).

(** What a call has done once the keystrokes supplied so far are used up:
    it has returned, it has raised, or it is inside [getch()] waiting for
    the next character with the cursor at [index].  [out] is the terminal
    output so far, oldest first. *)
Inductive outcome : Type :=
| Returned (v : option string) (out : list term_event)
| Raised (e : exn) (out : list term_event)
| Blocked (index : Z) (out : list term_event).

Definition key_q : ascii := "q"%char.
Definition key_esc : ascii := "027"%char.
Definition key_j : ascii := "j"%char.
Definition key_k : ascii := "k"%char.
Definition key_cr : ascii := "013"%char.

Section Picker.

(** [PrettyListCreator(rows).pretty_list(index)]: the rendering belongs
    to the module [listcreator]; the text it produces is a parameter. *)
Variable pretty_list : list (list string) -> Z -> string.

Variable results_array : ResultModel.
Variable results_len : Z.

Definition loop_body (index : Z) (user_input : ascii) : step_result :=
  let results_array_length := OrderedDict.size results_array in
  let rows := OrderedDict.values results_array in
  if Ascii.eqb user_input key_q || Ascii.eqb user_input key_esc then
    Return None []
  else if Ascii.eqb user_input key_j && (index <? results_array_length - 1) then
    Continue (index + 1) [Reprint (pretty_list rows (index + 1))]
  else if Ascii.eqb user_input key_k && (index >? 0) then
    Continue (index - 1) [Reprint (pretty_list rows (index - 1))]
  else if Ascii.eqb user_input key_cr then
    let out := [Reprint ""; Moveup (results_len + 10)] in
    match identifierAt results_array index with
    | Ok id => Return (Some id) out
    | Err e => Raise e out
    end
  else Continue index [].

Fixpoint scroll_loop (index : Z) (out : list term_event) (input : list ascii)
  : outcome :=
  match input with
  | [] => Blocked index out
  | user_input :: rest =>
      match loop_body index user_input with
      | Continue index' o => scroll_loop index' (out ++ o) rest
      | Return v o => Returned v (out ++ o)
      | Raise e o => Raised e (out ++ o)
      end
  end.

Definition let_user_scroll (input : list ascii) : outcome :=
  let rows := OrderedDict.values results_array in
  scroll_loop 0 [Reprint (pretty_list rows 0)] input.

End Picker.

(* ================================================================= *)
(** ** The [search] branch of [main]

    The branch taken for [spo search <search-terms>...], once the
    connection to the player is set up.  The search itself is the
    collaborator's: the branch is given the items of its response. *)

(** What [main] does to the outside: terminal output of the picker,
    [print], and [ctl_interface.OpenUri]. *)
Inductive action : Type :=
| Term (e : term_event)
| Print (s : string)
| OpenUri (u : string).

(** How the branch ends: with [return], by falling through to the code
    after the [if] chain (the delay and the display of the current track),
    with an exception, or waiting for a keystroke. *)
Inductive main_outcome : Type :=
| MainReturn (trace : list action)
| MainFallThrough (trace : list action)
| MainRaised (e : exn) (trace : list action)
| MainBlocked (trace : list action).

Section Main.

(** The picker is a parameter here so that the calls [main] makes to it
    can be talked about; [main_search] below instantiates it with
    [let_user_scroll]. *)
Variable picker : ResultModel -> Z -> list ascii -> outcome.

Definition main_search_with (items : list item) (search_terms : list string)
  (input : list ascii) : main_outcome :=
  match get_search_result_dict items "tracks" with
  | Err e => MainRaised e []
  | Ok (Some results_array) =>
      (* [if results_array:] holds for a dict that is not empty *)
      if OrderedDict.truthy results_array then
        match picker results_array (len results_array) input with
        | Returned user_selection out =>
            (* [if user_selection:] holds for a string that is not empty *)
            match user_selection with
            | Some (String c s) =>
                MainFallThrough (map Term out ++ [OpenUri (String c s)])
            | Some EmptyString | None => MainReturn (map Term out)
            end
        | Raised e out => MainRaised e (map Term out)
        | Blocked _ out => MainBlocked (map Term out)
        end
      else
        MainReturn
          [Print ("No results found for query: " ++ join " " search_terms)]
  | Ok None =>
      MainReturn
        [Print ("No results found for query: " ++ join " " search_terms)]
  end.

End Main.

Definition main_search (pretty_list : list (list string) -> Z -> string)
  : list item -> list string -> list ascii -> main_outcome :=
  main_search_with (fun results_array results_len =>
    let_user_scroll pretty_list results_array results_len).

Definition is_Moveup (e : term_event) : bool :=
  match e with
  | Moveup _ => true
  | _ => false
  end.

(* ================================================================= *)
(** ** Reference notions used in the statements *)

(** The three result kinds, as the values of [search_type]. *)
Definition kinds : list string := ["tracks"; "artists"; "albums"].

(** Name of the first artist of a record, when it has one. *)
Definition first_artist (it : item) : option string :=
  match artists it with
  | Some (a :: _) => Some (artist_name a)
  | _ => None
  end.

(** The display fields of a record, as the specification words them:
    track -> name, first artist, album name; artist -> name;
    album -> name, first artist.  [None] when the record lacks a field the
    kind projects. *)
Definition projection (kind : string) (it : item) : option (list string) :=
  if String.eqb kind "tracks" then
    match first_artist it, item_album it with
    | Some a, Some al => Some [name it; a; album_name al]
    | _, _ => None
    end
  else if String.eqb kind "artists" then Some [name it]
  else if String.eqb kind "albums" then
    match first_artist it with
    | Some a => Some [name it; a]
    | None => None
    end
  else None.

(** A record that carries every field its kind projects. *)
Definition well_formed (kind : string) (it : item) : Prop :=
  projection kind it <> None.

(** Number of display fields of a kind. *)
Definition arity (kind : string) : nat :=
  if String.eqb kind "tracks" then 3
  else if String.eqb kind "artists" then 1
  else if String.eqb kind "albums" then 2
  else 0.

(** Membership in a list of strings, as a boolean. *)
Definition mem (x : string) (l : list string) : bool :=
  existsb (String.eqb x) l.

(** Each string kept at its first occurrence only. *)
Fixpoint first_occurrences (l : list string) : list string :=
  match l with
  | [] => []
  | x :: r => x :: filter (fun y => negb (String.eqb y x)) (first_occurrences r)
  end.

(** The last record of [items] whose identifier is [id]. *)
Fixpoint last_with (id : string) (items : list item) : option item :=
  match items with
  | [] => None
  | it :: rest =>
      match last_with id rest with
      | Some it' => Some it'
      | None => if String.eqb (uri it) id then Some it else None
      end
  end.

(** The round trip of the model construction, for every non-empty input. *)
Definition roundtrip_for_all_inputs : Prop :=
  forall (items : list item) (kind : string) (m : ResultModel),
    In kind kinds ->
    items <> [] ->
    Forall (well_formed kind) items ->
    get_search_result_dict items kind = Ok (Some m) ->
    forall (i : nat) (it : item),
      nth_error items i = Some it ->
      identifierAt m (Z.of_nat i) = Ok (uri it).

(** Keys that end the loop. *)
Definition terminal_key (c : ascii) : bool :=
  Ascii.eqb c key_q || Ascii.eqb c key_esc || Ascii.eqb c key_cr.

(** Keys the loop reacts to. *)
Definition recognized_key (c : ascii) : bool :=
  Ascii.eqb c key_j || Ascii.eqb c key_k || terminal_key c.

(** The cursor is inside the model. *)
Definition in_bounds (results_array : ResultModel) (index : Z) : Prop :=
  0 <= index < OrderedDict.size results_array.

(** The last thing printed is the rendering of the cursor position, and
    nothing has been moved up. *)
Definition rendered (pretty_list : list (list string) -> Z -> string)
  (results_array : ResultModel) (index : Z) (out : list term_event) : Prop :=
  last out (Moveup 0) =
    Reprint (pretty_list (OrderedDict.values results_array) index) /\
  existsb is_Moveup out = false.

(** A picker that refuses the empty model and is [let_user_scroll] on
    every other one. *)
Definition picker_refusing_empty
  (pretty_list : list (list string) -> Z -> string)
  (results_array : ResultModel) (results_len : Z) (input : list ascii)
  : outcome :=
  match results_array with
  | [] => Raised IndexError []
  | _ :: _ => let_user_scroll pretty_list results_array results_len input
  end.

(** The output of the picker on a three-row model after two presses of
    the down key, under [show_index]. *)
Definition out_after_two_downs : list term_event :=
  [Reprint "0"; Reprint "1"; Reprint "2"].

(** Three track records, with identifiers A, A and B. *)
Definition track (u n a al : string) : item :=
  {| uri := u; name := n;
     artists := Some [ {| artist_name := a |} ];
     item_album := Some {| album_name := al |} |}.

Definition tracks_AAB : list item :=
  [ track "spotify:track:A" "first" "x" "p";
    track "spotify:track:A" "second" "y" "q";
    track "spotify:track:B" "third" "z" "r" ].

Definition tracks_ABC : list item :=
  [ track "spotify:track:A" "first" "x" "p";
    track "spotify:track:B" "second" "y" "q";
    track "spotify:track:C" "third" "z" "r" ].

Definition model_ABC : ResultModel :=
  [ ("spotify:track:A", ["first"; "x"; "p"]);
    ("spotify:track:B", ["second"; "y"; "q"]);
    ("spotify:track:C", ["third"; "z"; "r"]) ].

(** A rendering used to run the picker on examples: the row number. *)
Definition show_index (rows : list (list string)) (index : Z) : string :=
  match index with
  | 0 => "0"
  | 1 => "1"
  | 2 => "2"
  | _ => "?"
  end.

(* ================================================================= *)
(** ** [search_and_get_uri] and the whole of [main] *)

(** The value passed as [limit] to the search: the literal [1] of the
    quick play, or the text read for [--num]. *)
Inductive limit : Type :=
| LimitInt (n : Z)
| LimitArg (s : string).

(** [spotipy.Spotify().search(q, limit=..., type=...)], as far as the
    program looks at the answer: the list under
    [search_data[search_type]['items']]. *)
Definition search_fn : Type := string -> limit -> string -> list item.

(** [s[:-1]] *)
Fixpoint drop_last (s : string) : string :=
  match s with
  | EmptyString => EmptyString
  | String c rest =>
      match rest with
      | EmptyString => EmptyString
      | String _ _ => String c (drop_last rest)
      end
  end.

(** [bool(l)] for a list *)
Definition truthy_list {A : Type} (l : list A) : bool :=
  match l with
  | [] => false
  | _ :: _ => true
  end.

(** [search_and_get_uri], given the items of the search response. *)
Definition search_and_get_uri_of (items : list item) : result (option string) :=
  if truthy_list items then
    it <- subscript items 0 ;;
    Ok (Some (uri it))
  else Ok None.

Definition search_and_get_uri (search : search_fn)
  (searched_keywords : list string) (search_type : string)
  : result (option string) :=
  search_and_get_uri_of
    (search (join " " searched_keywords) (LimitInt 1) (drop_last search_type)).

(** The options and commands read by [docopt]. *)
Record arguments : Type := {
  arg_prev : bool;
  arg_play : bool;
  arg_pause : bool;
  arg_next : bool;
  arg_save : bool;
  arg_vol : bool;
  arg_up : bool;
  arg_search : bool;
  arg_song : bool;
  arg_artist : bool;
  arg_album : bool;
  arg_search_terms : list string;
  arg_num : string
}.

(** The [Metadata] property of the player: the three keys the program
    reads, each present or not. *)
Record metadata : Type := {
  xesam_title : option string;
  xesam_artist : option (list string);
  xesam_album : option string
}.

(** What is outside the program: whether the player answers on the bus,
    the catalog search, and the metadata of the current track. *)
Record world : Type := {
  connected : bool;
  spotify_search : search_fn;
  player_metadata : metadata
}.

(** Everything [main] does to the outside, in order. *)
Inductive effect : Type :=
| Out (a : action)
| Previous
| PlayPause
| Pause
| Next
| System (command : string)
| Sleep (milliseconds : Z)
| GetMetadata
| Search (q : string) (lim : limit) (type : string).

(** How [main] ends: it has returned, it has raised, or it waits for a
    keystroke. *)
Inductive run : Type :=
| Done (trace : list effect)
| Failed (e : exn) (trace : list effect)
| Reading (trace : list effect).

Definition VOL_UP : string := "amixer -q -D pulse sset Master 5%+".
Definition VOL_DOWN : string := "amixer -q -D pulse sset Master 5%-".

Definition tab : string := String "009"%char EmptyString.

(** The end of [main]: the delay, the metadata query and the three
    [print] calls.  In [print(a + b if c else d)] the conditional takes in
    the whole sum, so a missing key prints the bare word. *)
Definition show_current_track (md : metadata) (before : list effect) : run :=
  let song :=
    match xesam_title md with
    | Some t => "Song:" ++ tab ++ t
    | None => "Unknown"
    end in
  let artist_line :=
    match xesam_artist md with
    | Some l => a <- subscript l 0 ;; Ok ("Artist:" ++ tab ++ a)
    | None => Ok "Unknown"
    end in
  let album_line :=
    match xesam_album md with
    | Some t => "Album:" ++ tab ++ t
    | None => "Unknown"
    end in
  match artist_line with
  | Ok line =>
      Done (before ++
            [Sleep 500; GetMetadata; Out (Print song); Out (Print line);
             Out (Print album_line)])%list
  | Err e =>
      Failed e (before ++ [Sleep 500; GetMetadata; Out (Print song)])%list
  end.

(** The branches [song], [artist] and [album]. *)
Definition quickplay (w : world) (search_terms : list string)
  (search_type : string) : run :=
  let asked :=
    Search (join " " search_terms) (LimitInt 1) (drop_last search_type) in
  match search_and_get_uri (spotify_search w) search_terms search_type with
  | Err e => Failed e [asked]
  | Ok (Some (String c s)) =>
      show_current_track (player_metadata w)
        [asked; Out (OpenUri (String c s))]
  | Ok (Some EmptyString) | Ok None =>
      Done [asked;
            Out (Print ("No results found for query: "
                        ++ join " " search_terms))]
  end.

(** The branch [search]: the request, then [main_search] on its answer. *)
Definition search_branch (pretty_list : list (list string) -> Z -> string)
  (w : world) (search_terms : list string) (num : string)
  (input : list ascii) : run :=
  let q := join " " search_terms in
  let asked := Search q (LimitArg num) (drop_last "tracks") in
  let items := spotify_search w q (LimitArg num) (drop_last "tracks") in
  match main_search pretty_list items search_terms input with
  | MainReturn t => Done (asked :: map Out t)
  | MainFallThrough t =>
      show_current_track (player_metadata w) (asked :: map Out t)
  | MainRaised e t => Failed e (asked :: map Out t)
  | MainBlocked t => Reading (asked :: map Out t)
  end.

(** The [except dbus.DBusException] block. *)
Definition offer_launch (input : list ascii) : run :=
  let asked :=
    [Out (Print "Error: cannot connect to spotify");
     Out (Print "Would you like to launch spotify client? (y/n)")] in
  match input with
  | [] => Reading asked
  | c :: _ =>
      if Ascii.eqb c "y"%char then
        Done (asked ++
              [Out (Print "launching spotify...");
               System "spotify --minimized & > /dev/null";
               Out (Print "spotify launched successfully")])%list
      else Done (asked ++ [Out (Print "aborting...")])%list
  end.

(** [main], after [docopt] has read the command line. *)
Definition main (pretty_list : list (list string) -> Z -> string)
  (w : world) (args : arguments) (input : list ascii) : run :=
  if negb (connected w) then offer_launch input
  else if arg_prev args then show_current_track (player_metadata w) [Previous]
  else if arg_play args then Done [PlayPause]
  else if arg_pause args then Done [Pause]
  else if arg_next args then show_current_track (player_metadata w) [Next]
  else if arg_save args then Done []
  else if arg_vol args then
    if arg_up args then Done [System VOL_UP] else Done [System VOL_DOWN]
  else if arg_search args then
    search_branch pretty_list w (arg_search_terms args) (arg_num args) input
  else if arg_song args then quickplay w (arg_search_terms args) "tracks"
  else if arg_artist args then quickplay w (arg_search_terms args) "artists"
  else if arg_album args then quickplay w (arg_search_terms args) "albums"
  else show_current_track (player_metadata w) [].

Definition trace (r : run) : list effect :=
  match r with
  | Done t | Failed _ t | Reading t => t
  end.

(** The calls on the player's control interface. *)
Definition is_player_command (e : effect) : bool :=
  match e with
  | Previous | PlayPause | Pause | Next | Out (OpenUri _) => true
  | _ => false
  end.

(** The effects that reach out of the terminal: player, shell, catalog. *)
Definition is_outside_call (e : effect) : bool :=
  match e with
  | Out (OpenUri _) => true
  | Out (Term _) | Out (Print _) => false
  | Sleep _ => false
  | Previous | PlayPause | Pause | Next => true
  | System _ | GetMetadata | Search _ _ _ => true
  end.

(** At most one call on the player's control interface, and no [OpenUri]
    of the empty string. *)
Definition guarded (t : list effect) : Prop :=
  (List.length (filter is_player_command t) <= 1)%nat /\
  forall u, In (Out (OpenUri u)) t -> u <> "".

(** The arguments of [spo <command>], with nothing else set. *)
Definition no_arguments : arguments :=
  {| arg_prev := false; arg_play := false; arg_pause := false;
     arg_next := false; arg_save := false; arg_vol := false; arg_up := false;
     arg_search := false; arg_song := false; arg_artist := false;
     arg_album := false; arg_search_terms := []; arg_num := "10" |}.

Definition search_arguments (terms : list string) : arguments :=
  {| arg_prev := false; arg_play := false; arg_pause := false;
     arg_next := false; arg_save := false; arg_vol := false; arg_up := false;
     arg_search := true; arg_song := false; arg_artist := false;
     arg_album := false; arg_search_terms := terms; arg_num := "10" |}.

Definition vol_up_arguments : arguments :=
  {| arg_prev := false; arg_play := false; arg_pause := false;
     arg_next := false; arg_save := false; arg_vol := true; arg_up := true;
     arg_search := false; arg_song := false; arg_artist := false;
     arg_album := false; arg_search_terms := []; arg_num := "10" |}.

(** A world in which every search answers with the tracks A, B, C and the
    player reports a title and an album but no artist. *)
Definition world_ABC : world :=
  {| connected := true;
     spotify_search := fun _ _ _ => tracks_ABC;
     player_metadata :=
       {| xesam_title := Some "first";
          xesam_artist := None;
          xesam_album := Some "p" |} |}.

Definition world_unreachable : world :=
  {| connected := false;
     spotify_search := fun _ _ _ => tracks_ABC;
     player_metadata :=
       {| xesam_title := None; xesam_artist := None; xesam_album := None |} |}.

(** Records that lack a projected field. *)
Definition track_without_artists : item :=
  {| uri := "spotify:track:D"; name := "fourth";
     artists := None;
     item_album := Some {| album_name := "s" |} |}.

Definition track_with_no_artist : item :=
  {| uri := "spotify:track:E"; name := "fifth";
     artists := Some [];
     item_album := Some {| album_name := "t" |} |}.

(* ================================================================= *)
(** ** The search response as JSON objects

    [item] above has the keys every catalog object carries.  The records
    below make no such assumption: every key the loop reads may be absent,
    and reading an absent key raises [KeyError] with that key.  This is
    [get_search_result_dict] on any list of objects; [of_item] relates the
    two. *)

Module Json.

Record artist : Type := { artist_name : option string }.

Record album : Type := { album_name : option string }.

Record item : Type := {
  uri : option string;
  name : option string;
  artists : option (list artist);
  item_album : option album
}.

(** [obj[key]] *)
Definition getitem {A : Type} (key : string) (field : option A) : result A :=
  match field with
  | Some a => Ok a
  | None => Err (KeyError key)
  end.

(** The body of the [for item in ...] loop.  The list display on the right
    of the assignment is evaluated first, left to right, then the
    subscript [item['uri']] of the target. *)
Definition add_item (search_type : string) (rtn_dict : ResultModel) (it : item)
  : result ResultModel :=
  if String.eqb search_type "tracks" then
    n <- getitem "name" (name it) ;;
    l <- getitem "artists" (artists it) ;;
    a <- subscript l 0 ;;
    an <- getitem "name" (artist_name a) ;;
    al <- getitem "album" (item_album it) ;;
    aln <- getitem "name" (album_name al) ;;
    u <- getitem "uri" (uri it) ;;
    Ok (OrderedDict.setitem rtn_dict u [n; an; aln])
  else if String.eqb search_type "artists" then
    n <- getitem "name" (name it) ;;
    u <- getitem "uri" (uri it) ;;
    Ok (OrderedDict.setitem rtn_dict u [n])
  else if String.eqb search_type "albums" then
    n <- getitem "name" (name it) ;;
    l <- getitem "artists" (artists it) ;;
    a <- subscript l 0 ;;
    an <- getitem "name" (artist_name a) ;;
    u <- getitem "uri" (uri it) ;;
    Ok (OrderedDict.setitem rtn_dict u [n; an])
  else Ok rtn_dict.

Fixpoint add_items (search_type : string) (rtn_dict : ResultModel)
  (items : list item) : result ResultModel :=
  match items with
  | [] => Ok rtn_dict
  | it :: rest =>
      d <- add_item search_type rtn_dict it ;;
      add_items search_type d rest
  end.

Definition get_search_result_dict (items : list item) (search_type : string)
  : result (option ResultModel) :=
  match items with
  | _ :: _ =>
      d <- add_items search_type OrderedDict.empty items ;;
      Ok (Some d)
  | [] => Ok None
  end.

(** Name of the first artist of an object, when there is one and it has a
    name. *)
Definition first_artist_name (it : item) : option string :=
  match artists it with
  | Some (a :: _) => artist_name a
  | _ => None
  end.

(** Name of the album of an object, when there is one and it has a
    name. *)
Definition album_name_of (it : item) : option string :=
  match item_album it with
  | Some al => album_name al
  | None => None
  end.

(** The display fields of an object for a kind, when it has them all. *)
Definition fields (kind : string) (it : item) : option (list string) :=
  if String.eqb kind "tracks" then
    match name it, first_artist_name it, album_name_of it with
    | Some n, Some an, Some aln => Some [n; an; aln]
    | _, _, _ => None
    end
  else if String.eqb kind "artists" then
    match name it with
    | Some n => Some [n]
    | None => None
    end
  else if String.eqb kind "albums" then
    match name it, first_artist_name it with
    | Some n, Some an => Some [n; an]
    | _, _ => None
    end
  else None.

(** An object that has every key the loop reads for the kind. *)
Definition complete (kind : string) (it : item) : Prop :=
  fields kind it <> None /\ uri it <> None.

End Json.

(** A record of the first kind as a JSON object: every key present. *)
Definition of_artist (a : artist) : Json.artist :=
  {| Json.artist_name := Some (artist_name a) |}.

Definition of_album (al : album) : Json.album :=
  {| Json.album_name := Some (album_name al) |}.

Definition of_item (it : item) : Json.item :=
  {| Json.uri := Some (uri it);
     Json.name := Some (name it);
     Json.artists := option_map (map of_artist) (artists it);
     Json.item_album := option_map of_album (item_album it) |}.

(** Objects that lack a key. *)
Definition json_without_name : Json.item :=
  {| Json.uri := Some "spotify:track:G"; Json.name := None;
     Json.artists := None; Json.item_album := None |}.

Definition json_without_uri : Json.item :=
  {| Json.uri := None; Json.name := Some "eighth";
     Json.artists := Some [ {| Json.artist_name := Some "v" |} ];
     Json.item_album := Some {| Json.album_name := Some "u" |} |}.

(* ================================================================= *)
(** ** Lemmas: lists and subscripting *)

Lemma mem_true_iff (x : string) (l : list string) :
  mem x l = true <-> In x l.
Proof.
  unfold mem. rewrite existsb_exists. split.
  - intros [y [Hin Heq]]. apply String.eqb_eq in Heq. now subst.
  - intros Hin. exists x. split; [assumption | apply String.eqb_refl].
Qed.

Lemma mem_false_iff (x : string) (l : list string) :
  mem x l = false <-> ~ In x l.
Proof.
  rewrite <- mem_true_iff. destruct (mem x l); split; congruence.
Qed.

Lemma mem_app (x : string) (l1 l2 : list string) :
  mem x (l1 ++ l2) = mem x l1 || mem x l2.
Proof. unfold mem. apply existsb_app. Qed.

Lemma filter_filter {A : Type} (p q : A -> bool) (l : list A) :
  filter p (filter q l) = filter (fun x => q x && p x) l.
Proof.
  induction l as [| a l IH]; simpl; [reflexivity |].
  destruct (q a); simpl; [destruct (p a) |]; now rewrite IH.
Qed.

Lemma filter_all {A : Type} (p : A -> bool) (l : list A) :
  (forall x, In x l -> p x = true) -> filter p l = l.
Proof.
  induction l as [| a l IH]; simpl; intros H; [reflexivity |].
  rewrite (H a (or_introl eq_refl)). f_equal. apply IH. auto.
Qed.

Lemma filter_length_le {A : Type} (p : A -> bool) (l : list A) :
  (List.length (filter p l) <= List.length l)%nat.
Proof.
  induction l as [| a l IH]; simpl; [lia |].
  destruct (p a); simpl; lia.
Qed.

Lemma filter_length_lt {A : Type} (p : A -> bool) (l : list A) (x : A) :
  In x l -> p x = false ->
  (List.length (filter p l) < List.length l)%nat.
Proof.
  induction l as [| a l IH]; simpl; intros Hin Hp; [contradiction |].
  destruct Hin as [-> | Hin].
  - rewrite Hp. pose proof (filter_length_le p l). lia.
  - specialize (IH Hin Hp). destruct (p a); simpl; lia.
Qed.

Lemma subscript_in_range {A : Type} (l : list A) (i : Z) :
  0 <= i < len l ->
  exists a, subscript l i = Ok a /\ nth_error l (Z.to_nat i) = Some a.
Proof.
  intros Hi. unfold subscript.
  destruct (i <? 0) eqn:Hneg; [apply Z.ltb_lt in Hneg; lia |].
  replace ((0 <=? i) && (i <? len l)) with true
    by (symmetry; apply andb_true_iff; split;
        [apply Z.leb_le | apply Z.ltb_lt]; lia).
  destruct (nth_error l (Z.to_nat i)) as [a |] eqn:Hnth.
  - exists a. split; reflexivity.
  - apply nth_error_None in Hnth. unfold len in Hi. lia.
Qed.

Lemma subscript_nth {A : Type} (l : list A) (i : nat) (a : A) :
  nth_error l i = Some a -> subscript l (Z.of_nat i) = Ok a.
Proof.
  intros Hnth.
  assert (Hlt : (i < List.length l)%nat)
    by (apply nth_error_Some; congruence).
  destruct (subscript_in_range l (Z.of_nat i)) as [b [Hs Hb]];
    [unfold len; lia |].
  rewrite Nat2Z.id in Hb. congruence.
Qed.

(* ================================================================= *)
(** ** Lemmas: first occurrences *)

Lemma first_occurrences_In (x : string) (l : list string) :
  In x (first_occurrences l) <-> In x l.
Proof.
  induction l as [| y l IH]; simpl; [tauto |].
  rewrite filter_In, IH, negb_true_iff, String.eqb_neq.
  destruct (string_dec y x) as [Heq | Hne]; [tauto |].
  split; [tauto |].
  intros [Heq | Hin]; [contradiction | right; split; congruence].
Qed.

Lemma first_occurrences_NoDup (l : list string) : NoDup (first_occurrences l).
Proof.
  induction l as [| y l IH]; simpl; constructor.
  - rewrite filter_In, negb_true_iff, String.eqb_neq. tauto.
  - now apply NoDup_filter.
Qed.

Lemma first_occurrences_length_le (l : list string) :
  (List.length (first_occurrences l) <= List.length l)%nat.
Proof.
  induction l as [| y l IH]; simpl; [lia |].
  pose proof (filter_length_le (fun z => negb (String.eqb z y))
                (first_occurrences l)). lia.
Qed.

Lemma first_occurrences_NoDup_id (l : list string) :
  NoDup l -> first_occurrences l = l.
Proof.
  induction 1 as [| y l Hnotin Hnd IH]; simpl; [reflexivity |].
  rewrite IH. f_equal. apply filter_all.
  intros z Hz. apply negb_true_iff, String.eqb_neq. congruence.
Qed.

Lemma first_occurrences_length_lt (l : list string) :
  ~ NoDup l ->
  (List.length (first_occurrences l) < List.length l)%nat.
Proof.
  induction l as [| y l IH]; simpl; intros Hdup.
  - exfalso. apply Hdup. constructor.
  - destruct (in_dec string_dec y l) as [Hin | Hnotin].
    + apply first_occurrences_In in Hin.
      pose proof (filter_length_lt (fun z => negb (String.eqb z y))
                    (first_occurrences l) y Hin) as Hlt.
      cbv beta in Hlt. rewrite String.eqb_refl in Hlt. specialize (Hlt eq_refl).
      pose proof (first_occurrences_length_le l). lia.
    + assert (Hl : ~ NoDup l) by (intros Hnd; apply Hdup; now constructor).
      specialize (IH Hl).
      pose proof (filter_length_le (fun z => negb (String.eqb z y))
                    (first_occurrences l)). lia.
Qed.

Lemma last_with_NoDup (items : list item) (it : item) :
  NoDup (map uri items) -> In it items -> last_with (uri it) items = Some it.
Proof.
  induction items as [| a items IH]; simpl; intros Hnd Hin; [contradiction |].
  inversion Hnd as [| u us Hnotin Hnd']; subst.
  destruct Hin as [-> | Hin].
  - destruct (last_with (uri it) items) as [b |] eqn:Hlast.
    + exfalso. apply Hnotin. clear - Hlast.
      induction items as [| c items IH]; simpl in *; [discriminate |].
      destruct (last_with (uri it) items); [right; now apply IH |].
      destruct (String.eqb (uri c) (uri it)) eqn:He; [| discriminate].
      left. now apply String.eqb_eq.
    + now rewrite String.eqb_refl.
  - now rewrite (IH Hnd' Hin).
Qed.

(* ================================================================= *)
(** ** Lemmas: OrderedDict *)

Lemma keys_setitem {V : Type} (d : OrderedDict.t V) (k : string) (v : V) :
  OrderedDict.keys (OrderedDict.setitem d k v) =
  if mem k (OrderedDict.keys d) then OrderedDict.keys d
  else (OrderedDict.keys d ++ [k])%list.
Proof.
  unfold OrderedDict.keys, mem.
  induction d as [| [k' v'] d IH]; simpl; [reflexivity |].
  rewrite (String.eqb_sym k k').
  destruct (String.eqb k' k) eqn:He; simpl; [reflexivity |].
  rewrite IH. now destruct (existsb (String.eqb k) (map fst d)).
Qed.

Lemma get_setitem {V : Type} (d : OrderedDict.t V) (k k' : string) (v : V) :
  OrderedDict.get (OrderedDict.setitem d k v) k' =
  if String.eqb k k' then Some v else OrderedDict.get d k'.
Proof.
  induction d as [| [k0 v0] d IH]; simpl.
  - reflexivity.
  - destruct (String.eqb k0 k) eqn:He; simpl.
    + apply String.eqb_eq in He. subst k0.
      now destruct (String.eqb k k').
    + rewrite IH. destruct (String.eqb k0 k') eqn:He'; [| reflexivity].
      apply String.eqb_eq in He'. subst k0.
      now rewrite (String.eqb_sym k k'), He.
Qed.

Lemma get_In {V : Type} (d : OrderedDict.t V) (k : string) (v : V) :
  NoDup (OrderedDict.keys d) -> In (k, v) d -> OrderedDict.get d k = Some v.
Proof.
  induction d as [| [k0 v0] d IH]; simpl; intros Hnd Hin; [contradiction |].
  inversion Hnd as [| u us Hnotin Hnd']; subst.
  destruct Hin as [Heq | Hin].
  - inversion Heq; subst. now rewrite String.eqb_refl.
  - destruct (String.eqb k0 k) eqn:He; [| now apply IH].
    apply String.eqb_eq in He. subst k0. exfalso. apply Hnotin.
    change k with (fst (k, v)). now apply in_map.
Qed.

Lemma get_Some_In {V : Type} (d : OrderedDict.t V) (k : string) (v : V) :
  OrderedDict.get d k = Some v -> In (k, v) d.
Proof.
  induction d as [| [k0 v0] d IH]; simpl; intros Hget; [discriminate |].
  destruct (String.eqb k0 k) eqn:He.
  - apply String.eqb_eq in He. inversion Hget; subst. now left.
  - right. now apply IH.
Qed.

Lemma setitem_keys_NoDup {V : Type} (d : OrderedDict.t V) (k : string) (v : V) :
  NoDup (OrderedDict.keys d) ->
  NoDup (OrderedDict.keys (OrderedDict.setitem d k v)).
Proof.
  intros Hnd. rewrite keys_setitem.
  destruct (mem k (OrderedDict.keys d)) eqn:Hmem; [assumption |].
  apply mem_false_iff in Hmem.
  apply NoDup_app; [assumption | repeat constructor; intros [] |].
  intros x Hx [Hk | []]. subst. contradiction.
Qed.

(* ================================================================= *)
(** ** Lemmas: the construction loop *)

Lemma subscript_head {A : Type} (a : A) (l : list A) :
  subscript (a :: l) 0 = Ok a.
Proof. apply (subscript_nth (a :: l) 0 a). reflexivity. Qed.

(** On a record that has the projected fields, the loop body is one
    assignment of the projection. *)
Lemma add_item_projection (kind : string) (d : ResultModel) (it : item)
  (fields : list string) :
  projection kind it = Some fields ->
  add_item kind d it = Ok (OrderedDict.setitem d (uri it) fields).
Proof.
  unfold projection, add_item, first_artist, get_artists, get_album.
  destruct (String.eqb kind "tracks");
    [| destruct (String.eqb kind "artists");
       [| destruct (String.eqb kind "albums")]].
  - destruct (artists it) as [[| a l] |]; try discriminate.
    destruct (item_album it) as [al |]; try discriminate.
    intros H. inversion H; subst. unfold bind. now rewrite subscript_head.
  - intros H. now inversion H.
  - destruct (artists it) as [[| a l] |]; try discriminate.
    intros H. inversion H; subst. unfold bind. now rewrite subscript_head.
  - discriminate.
Qed.

(** Whatever the record, the loop body leaves the dict alone or assigns to
    the record's identifier. *)
Lemma add_item_cases (kind : string) (d d' : ResultModel) (it : item) :
  add_item kind d it = Ok d' ->
  d' = d \/ exists fields, d' = OrderedDict.setitem d (uri it) fields.
Proof.
  unfold add_item, bind.
  destruct (String.eqb kind "tracks");
    [| destruct (String.eqb kind "artists");
       [| destruct (String.eqb kind "albums")]].
  - destruct (get_artists it) as [l | e]; [| discriminate].
    destruct (subscript l 0) as [a | e]; [| discriminate].
    destruct (get_album it) as [al | e]; [| discriminate].
    intros H. inversion H. right. eauto.
  - intros H. inversion H. right. eauto.
  - destruct (get_artists it) as [l | e]; [| discriminate].
    destruct (subscript l 0) as [a | e]; [| discriminate].
    intros H. inversion H. right. eauto.
  - intros H. inversion H. now left.
Qed.

Lemma add_items_keys_NoDup (kind : string) (items : list item) :
  forall d d' : ResultModel,
    NoDup (OrderedDict.keys d) ->
    add_items kind d items = Ok d' ->
    NoDup (OrderedDict.keys d').
Proof.
  induction items as [| it rest IH]; simpl; intros d d' Hnd Hrun.
  - inversion Hrun. now subst.
  - destruct (add_item kind d it) as [d1 | e] eqn:Hadd; simpl in Hrun;
      [| discriminate].
    apply (IH d1 d'); [| assumption].
    destruct (add_item_cases _ _ _ _ Hadd) as [-> | [fields ->]];
      [assumption | now apply setitem_keys_NoDup].
Qed.

(** The model built on well-formed records: its keys and its values in
    terms of the input, for any starting dict. *)
Lemma add_items_spec (kind : string) (items : list item) :
  Forall (well_formed kind) items ->
  forall d : ResultModel,
  exists m : ResultModel,
    add_items kind d items = Ok m /\
    OrderedDict.keys m =
      (OrderedDict.keys d ++
       filter (fun y => negb (mem y (OrderedDict.keys d)))
         (first_occurrences (map uri items)))%list /\
    forall id,
      OrderedDict.get m id =
      match last_with id items with
      | Some it => projection kind it
      | None => OrderedDict.get d id
      end.
Proof.
  induction 1 as [| it rest Hwf Hrest IH]; intros d.
  - exists d. simpl. rewrite app_nil_r. repeat split.
  - unfold well_formed in Hwf.
    destruct (projection kind it) as [fields |] eqn:Hproj; [| congruence].
    destruct (IH (OrderedDict.setitem d (uri it) fields))
      as [m [Hrun [Hkeys Hget]]].
    exists m. split; [| split].
    + simpl. now rewrite (add_item_projection _ _ _ _ Hproj).
    + rewrite Hkeys, keys_setitem. simpl.
      rewrite filter_filter.
      destruct (mem (uri it) (OrderedDict.keys d)) eqn:Hmem; simpl.
      * f_equal. apply filter_ext. intros y.
        destruct (String.eqb y (uri it)) eqn:He; [| reflexivity].
        apply String.eqb_eq in He. subst y. now rewrite Hmem.
      * rewrite <- app_assoc. simpl. do 2 f_equal.
        apply filter_ext. intros y. rewrite mem_app. simpl.
        destruct (mem y (OrderedDict.keys d)), (String.eqb y (uri it));
          reflexivity.
    + intros id. rewrite Hget, get_setitem. simpl.
      destruct (last_with id rest); [reflexivity |].
      now destruct (String.eqb (uri it) id).
Qed.

Lemma get_search_result_dict_spec (kind : string) (items : list item) :
  items <> [] ->
  Forall (well_formed kind) items ->
  exists m : ResultModel,
    get_search_result_dict items kind = Ok (Some m) /\
    OrderedDict.keys m = first_occurrences (map uri items) /\
    forall id,
      OrderedDict.get m id =
      match last_with id items with
      | Some it => projection kind it
      | None => None
      end.
Proof.
  intros Hne Hwf.
  destruct (add_items_spec kind items Hwf OrderedDict.empty)
    as [m [Hrun [Hkeys Hget]]].
  exists m. split; [| split].
  - destruct items as [| it rest]; [congruence |].
    unfold get_search_result_dict. now rewrite Hrun.
  - rewrite Hkeys. simpl. apply filter_all. reflexivity.
  - intros id. rewrite Hget. reflexivity.
Qed.

Lemma model_keys_NoDup (kind : string) (items : list item) (m : ResultModel) :
  get_search_result_dict items kind = Ok (Some m) ->
  NoDup (OrderedDict.keys m).
Proof.
  unfold get_search_result_dict.
  destruct items as [| it rest]; [discriminate |].
  destruct (add_items kind OrderedDict.empty (it :: rest)) as [d | e] eqn:Hrun;
    simpl; [| discriminate].
  intros H. inversion H; subst.
  apply (add_items_keys_NoDup kind (it :: rest) OrderedDict.empty);
    [constructor | assumption].
Qed.

Lemma projection_arity (kind : string) (it : item) (fields : list string) :
  projection kind it = Some fields -> List.length fields = arity kind.
Proof.
  unfold projection, arity.
  destruct (String.eqb kind "tracks");
    [| destruct (String.eqb kind "artists");
       [| destruct (String.eqb kind "albums")]].
  - destruct (first_artist it); [| discriminate].
    destruct (item_album it); [| discriminate].
    intros H. now inversion H.
  - intros H. now inversion H.
  - destruct (first_artist it); [| discriminate].
    intros H. now inversion H.
  - discriminate.
Qed.

(* ================================================================= *)
(** ** Facts about the sample records *)

Lemma tracks_ABC_well_formed : Forall (well_formed "tracks") tracks_ABC.
Proof. repeat constructor; discriminate. Qed.

Lemma tracks_ABC_distinct : NoDup (map uri tracks_ABC).
Proof.
  repeat constructor; simpl; intros H;
    repeat (destruct H as [H | H]; [discriminate |]); exact H.
Qed.

Lemma tracks_AAB_well_formed : Forall (well_formed "tracks") tracks_AAB.
Proof. repeat constructor; discriminate. Qed.

Lemma tracks_AAB_repeated : ~ NoDup (map uri tracks_AAB).
Proof.
  intros H. inversion H as [| x l Hnotin Hnd]; subst.
  apply Hnotin. now left.
Qed.

Lemma tracks_in_kinds : In "tracks" kinds.
Proof. now left. Qed.

(* ================================================================= *)
(** ** The result model *)

(** C1, as stated, fails: on three track records with identifiers A, A, B
    the model has the two entries A, B, so position 1 of the model holds B
    while the record at position 1 of the input has identifier A. *)
Lemma roundtrip_fails_on_repeated_identifier :
  tracks_AAB <> [] /\
  Forall (well_formed "tracks") tracks_AAB /\
  get_search_result_dict tracks_AAB "tracks" =
    Ok (Some [ ("spotify:track:A", ["second"; "y"; "q"]);
               ("spotify:track:B", ["third"; "z"; "r"]) ]) /\
  option_map uri (nth_error tracks_AAB 1) = Some "spotify:track:A" /\
  identifierAt [ ("spotify:track:A", ["second"; "y"; "q"]);
                 ("spotify:track:B", ["third"; "z"; "r"]) ] 1
    = Ok "spotify:track:B" /\
  ~ roundtrip_for_all_inputs.
Proof.
  split; [discriminate |].
  split; [exact tracks_AAB_well_formed |].
  split; [reflexivity |].
  split; [reflexivity |].
  split; [reflexivity |].
  intros Hall.
  specialize (Hall tracks_AAB "tracks" _ tracks_in_kinds
                ltac:(discriminate) tracks_AAB_well_formed eq_refl
                1%nat _ eq_refl).
  vm_compute in Hall. discriminate.
Qed.

(** C1, amended: when the identifiers of the records are pairwise distinct
    (and every record carries the fields its kind projects), the
    construction returns a model of the same length in which position [i]
    holds the identifier of record [i] together with the projection of that
    record: three fields for a track, one for an artist, two for an album. *)
Theorem build_roundtrip_distinct (items : list item) (kind : string) :
  In kind kinds ->
  items <> [] ->
  Forall (well_formed kind) items ->
  NoDup (map uri items) ->
  exists m : ResultModel,
    get_search_result_dict items kind = Ok (Some m) /\
    OrderedDict.size m = len items /\
    forall (i : nat) (it : item),
      nth_error items i = Some it ->
      identifierAt m (Z.of_nat i) = Ok (uri it) /\
      exists fields,
        nth_error m i = Some (uri it, fields) /\
        projection kind it = Some fields /\
        List.length fields = arity kind.
Proof.
  intros _ Hne Hwf Hnd.
  destruct (get_search_result_dict_spec kind items Hne Hwf)
    as [m [Hrun [Hkeys Hget]]].
  rewrite (first_occurrences_NoDup_id _ Hnd) in Hkeys.
  exists m. split; [assumption |]. split.
  - unfold OrderedDict.size, len.
    rewrite <- (length_map fst m), <- (length_map uri items).
    unfold OrderedDict.keys in Hkeys. now rewrite Hkeys.
  - intros i it Hnth.
    assert (Hkey : nth_error (OrderedDict.keys m) i = Some (uri it))
      by (rewrite Hkeys, nth_error_map, Hnth; reflexivity).
    split; [now apply subscript_nth |].
    unfold OrderedDict.keys in Hkey. rewrite nth_error_map in Hkey.
    destruct (nth_error m i) as [[k v] |] eqn:Hentry; [| discriminate].
    simpl in Hkey. inversion Hkey; subst k.
    assert (Hv : OrderedDict.get m (uri it) = Some v).
    { apply get_In; [| now apply nth_error_In with i].
      rewrite Hkeys. assumption. }
    rewrite Hget, (last_with_NoDup items it Hnd) in Hv
      by now apply nth_error_In with i.
    exists v. repeat split; [assumption |].
    now apply projection_arity with it.
Qed.

Lemma build_roundtrip_distinct_witness :
  In "tracks" kinds /\
  tracks_ABC <> [] /\
  Forall (well_formed "tracks") tracks_ABC /\
  NoDup (map uri tracks_ABC) /\
  exists m : ResultModel,
    get_search_result_dict tracks_ABC "tracks" = Ok (Some m) /\
    OrderedDict.size m = len tracks_ABC /\
    forall (i : nat) (it : item),
      nth_error tracks_ABC i = Some it ->
      identifierAt m (Z.of_nat i) = Ok (uri it) /\
      exists fields,
        nth_error m i = Some (uri it, fields) /\
        projection "tracks" it = Some fields /\
        List.length fields = arity "tracks".
Proof.
  split; [exact tracks_in_kinds |].
  split; [discriminate |].
  split; [exact tracks_ABC_well_formed |].
  split; [exact tracks_ABC_distinct |].
  apply (build_roundtrip_distinct tracks_ABC "tracks").
  - exact tracks_in_kinds.
  - discriminate.
  - exact tracks_ABC_well_formed.
  - exact tracks_ABC_distinct.
Defined.

(** C10: when two or more records share an identifier, the model is
    strictly shorter than the input, its identifiers are pairwise distinct
    and stand in the order of their first occurrences in the input, and
    each identifier carries the fields projected from the last record that
    has it. *)
Theorem duplicate_identifiers_collapse (items : list item) (kind : string) :
  In kind kinds ->
  Forall (well_formed kind) items ->
  ~ NoDup (map uri items) ->
  exists m : ResultModel,
    get_search_result_dict items kind = Ok (Some m) /\
    OrderedDict.size m < len items /\
    NoDup (OrderedDict.keys m) /\
    OrderedDict.keys m = first_occurrences (map uri items) /\
    forall (id : string) (it : item),
      last_with id items = Some it ->
      exists fields,
        projection kind it = Some fields /\
        OrderedDict.get m id = Some fields /\
        In (id, fields) m.
Proof.
  intros _ Hwf Hdup.
  assert (Hne : items <> []).
  { intros ->. apply Hdup. constructor. }
  destruct (get_search_result_dict_spec kind items Hne Hwf)
    as [m [Hrun [Hkeys Hget]]].
  exists m. split; [assumption |]. split; [| split; [| split]].
  - pose proof (first_occurrences_length_lt _ Hdup) as Hlt.
    rewrite <- Hkeys in Hlt. unfold OrderedDict.keys in Hlt.
    rewrite !length_map in Hlt. unfold OrderedDict.size, len. lia.
  - rewrite Hkeys. apply first_occurrences_NoDup.
  - assumption.
  - intros id it Hlast. specialize (Hget id). rewrite Hlast in Hget.
    destruct (projection kind it) as [fields |] eqn:Hproj.
    + exists fields. repeat split; [assumption |]. now apply get_Some_In.
    + exfalso. clear - Hwf Hlast Hproj.
      induction Hwf as [| a rest Ha Hrest IH]; simpl in Hlast; [discriminate |].
      destruct (last_with id rest); [now apply IH |].
      destruct (String.eqb (uri a) id); [| discriminate].
      inversion Hlast; subst. contradiction.
Qed.

Lemma duplicate_identifiers_collapse_witness :
  In "tracks" kinds /\
  Forall (well_formed "tracks") tracks_AAB /\
  ~ NoDup (map uri tracks_AAB) /\
  exists m : ResultModel,
    get_search_result_dict tracks_AAB "tracks" = Ok (Some m) /\
    OrderedDict.size m < len tracks_AAB /\
    NoDup (OrderedDict.keys m) /\
    OrderedDict.keys m = first_occurrences (map uri tracks_AAB) /\
    forall (id : string) (it : item),
      last_with id tracks_AAB = Some it ->
      exists fields,
        projection "tracks" it = Some fields /\
        OrderedDict.get m id = Some fields /\
        In (id, fields) m.
Proof.
  split; [exact tracks_in_kinds |].
  split; [exact tracks_AAB_well_formed |].
  split; [exact tracks_AAB_repeated |].
  apply (duplicate_identifiers_collapse tracks_AAB "tracks").
  - exact tracks_in_kinds.
  - exact tracks_AAB_well_formed.
  - exact tracks_AAB_repeated.
Defined.

(* ================================================================= *)
(** ** Lemmas: the scrolling loop *)

Section PickerLemmas.

Variable pretty_list : list (list string) -> Z -> string.
Variable results_array : ResultModel.
Variable results_len : Z.

Local Abbreviation body := (loop_body pretty_list results_array results_len).
Local Abbreviation loop := (scroll_loop pretty_list results_array results_len).
Local Abbreviation size := (OrderedDict.size results_array).
Local Abbreviation rows := (OrderedDict.values results_array).

Lemma nonempty_in_bounds : results_array <> [] -> in_bounds results_array 0.
Proof.
  unfold in_bounds, OrderedDict.size, len.
  destruct results_array; [congruence |]. simpl. lia.
Qed.

(** *** The loop body, key by key *)

Lemma body_cancel (index : Z) (c : ascii) :
  c = key_q \/ c = key_esc -> body index c = Return None [].
Proof. intros [-> | ->]; reflexivity. Qed.

Lemma body_confirm (index : Z) :
  body index key_cr =
  match identifierAt results_array index with
  | Ok id => Return (Some id) [Reprint ""; Moveup (results_len + 10)]
  | Err e => Raise e [Reprint ""; Moveup (results_len + 10)]
  end.
Proof. reflexivity. Qed.

Lemma body_down (index : Z) :
  body index key_j =
  if index <? size - 1
  then Continue (index + 1) [Reprint (pretty_list rows (index + 1))]
  else Continue index [].
Proof. unfold loop_body. simpl. now destruct (index <? size - 1). Qed.

Lemma body_up (index : Z) :
  body index key_k =
  if index >? 0
  then Continue (index - 1) [Reprint (pretty_list rows (index - 1))]
  else Continue index [].
Proof. unfold loop_body. simpl. now destruct (index >? 0). Qed.

Lemma body_other (index : Z) (c : ascii) :
  recognized_key c = false -> body index c = Continue index [].
Proof.
  unfold recognized_key, terminal_key, loop_body. intros H.
  apply orb_false_iff in H. destruct H as [Hnav Hterm].
  apply orb_false_iff in Hnav. destruct Hnav as [Hj Hk].
  apply orb_false_iff in Hterm. destruct Hterm as [Hcancel Hcr].
  apply orb_false_iff in Hcancel. destruct Hcancel as [Hq Hesc].
  rewrite Hq, Hesc, Hj, Hk, Hcr. reflexivity.
Qed.

(** Every key is one of the five the loop knows, or is ignored. *)
Lemma key_cases (c : ascii) :
  c = key_q \/ c = key_esc \/ c = key_j \/ c = key_k \/ c = key_cr \/
  recognized_key c = false.
Proof.
  unfold recognized_key, terminal_key.
  destruct (Ascii.eqb c key_q) eqn:Hq;
    [apply Ascii.eqb_eq in Hq; tauto |].
  destruct (Ascii.eqb c key_esc) eqn:He;
    [apply Ascii.eqb_eq in He; tauto |].
  destruct (Ascii.eqb c key_j) eqn:Hj;
    [apply Ascii.eqb_eq in Hj; tauto |].
  destruct (Ascii.eqb c key_k) eqn:Hk;
    [apply Ascii.eqb_eq in Hk; tauto |].
  destruct (Ascii.eqb c key_cr) eqn:Hc;
    [apply Ascii.eqb_eq in Hc; tauto |].
  repeat right. reflexivity.
Qed.

Lemma confirm_in_bounds (index : Z) :
  in_bounds results_array index ->
  exists id,
    identifierAt results_array index = Ok id /\
    nth_error (OrderedDict.keys results_array) (Z.to_nat index) = Some id.
Proof.
  intros Hb. apply subscript_in_range.
  unfold in_bounds, OrderedDict.size, len in Hb.
  unfold len, OrderedDict.keys. rewrite length_map. exact Hb.
Qed.

(** A pass that goes on keeps the cursor inside the model. *)
Lemma body_keeps_bounds (index index' : Z) (c : ascii) (o : list term_event) :
  in_bounds results_array index ->
  body index c = Continue index' o ->
  in_bounds results_array index'.
Proof.
  unfold in_bounds. intros Hb Hstep.
  destruct (key_cases c) as [-> | [-> | [-> | [-> | [-> | Hc]]]]].
  - rewrite body_cancel in Hstep by tauto. discriminate.
  - rewrite body_cancel in Hstep by tauto. discriminate.
  - rewrite body_down in Hstep.
    destruct (index <? size - 1) eqn:Hlt; inversion Hstep; subst;
      [apply Z.ltb_lt in Hlt |]; lia.
  - rewrite body_up in Hstep.
    destruct (index >? 0) eqn:Hgt; inversion Hstep; subst;
      [rewrite Z.gtb_ltb in Hgt; apply Z.ltb_lt in Hgt |]; lia.
  - rewrite body_confirm in Hstep.
    destruct (identifierAt results_array index); discriminate.
  - rewrite (body_other _ _ Hc) in Hstep. inversion Hstep; subst. lia.
Qed.

(** A pass that goes on produces no [moveup], and what it prints, if
    anything, is the rendering of the new cursor position. *)
Lemma body_continue_output (index index' : Z) (c : ascii)
  (o : list term_event) :
  body index c = Continue index' o ->
  (o = [] /\ index' = index) \/
  (o = [Reprint (pretty_list rows index')] /\ index' <> index).
Proof.
  intros Hstep.
  destruct (key_cases c) as [-> | [-> | [-> | [-> | [-> | Hc]]]]].
  - rewrite body_cancel in Hstep by tauto. discriminate.
  - rewrite body_cancel in Hstep by tauto. discriminate.
  - rewrite body_down in Hstep.
    destruct (index <? size - 1); inversion Hstep; subst;
      [right; split; [reflexivity | lia] | now left].
  - rewrite body_up in Hstep.
    destruct (index >? 0); inversion Hstep; subst;
      [right; split; [reflexivity | lia] | now left].
  - rewrite body_confirm in Hstep.
    destruct (identifierAt results_array index); discriminate.
  - rewrite (body_other _ _ Hc) in Hstep. inversion Hstep; subst. now left.
Qed.

(** A pass returns only on a cancel key, with [None] and no output, or on
    the confirm key, with the identifier under the cursor after the blank
    reprint and the move up. *)
Lemma body_return_inv (index : Z) (c : ascii) (v : option string)
  (o : list term_event) :
  body index c = Return v o ->
  ((c = key_q \/ c = key_esc) /\ v = None /\ o = []) \/
  (c = key_cr /\
   exists id, identifierAt results_array index = Ok id /\ v = Some id /\
              o = [Reprint ""; Moveup (results_len + 10)]).
Proof.
  intros Hstep.
  destruct (key_cases c) as [-> | [-> | [-> | [-> | [-> | Hc]]]]].
  - rewrite body_cancel in Hstep by tauto. inversion Hstep. left. tauto.
  - rewrite body_cancel in Hstep by tauto. inversion Hstep. left. tauto.
  - rewrite body_down in Hstep.
    destruct (index <? size - 1); discriminate.
  - rewrite body_up in Hstep.
    destruct (index >? 0); discriminate.
  - rewrite body_confirm in Hstep. right. split; [reflexivity |].
    destruct (identifierAt results_array index) as [id | e];
      inversion Hstep; subst. eauto.
  - rewrite (body_other _ _ Hc) in Hstep. discriminate.
Qed.

(** *** The loop over a sequence of keys *)

Lemma loop_app (ks1 ks2 : list ascii) :
  forall index out,
    loop index out (ks1 ++ ks2) =
    match loop index out ks1 with
    | Blocked index' out' => loop index' out' ks2
    | r => r
    end.
Proof.
  induction ks1 as [| c ks1 IH]; intros index out; simpl; [reflexivity |].
  destruct (body index c); [apply IH | reflexivity | reflexivity].
Qed.

Lemma loop_snoc (ks : list ascii) (c : ascii) (index index' : Z)
  (out out' : list term_event) :
  loop index out ks = Blocked index' out' ->
  loop index out (ks ++ [c]) =
  match body index' c with
  | Continue i o => Blocked i (out' ++ o)
  | Return v o => Returned v (out' ++ o)
  | Raise e o => Raised e (out' ++ o)
  end.
Proof. intros H. rewrite loop_app, H. reflexivity. Qed.

Lemma loop_keeps_bounds (ks : list ascii) :
  forall index out index' out',
    in_bounds results_array index ->
    loop index out ks = Blocked index' out' ->
    in_bounds results_array index'.
Proof.
  induction ks as [| c ks IH]; simpl; intros index out index' out' Hb Hrun.
  - inversion Hrun; subst. assumption.
  - destruct (body index c) as [i o | v o | e o] eqn:Hstep;
      try discriminate.
    apply (IH i (out ++ o)%list index' out'); [| assumption].
    now apply body_keeps_bounds with index c o.
Qed.

Lemma loop_keeps_rendered (ks : list ascii) :
  forall index out index' out',
    rendered pretty_list results_array index out ->
    loop index out ks = Blocked index' out' ->
    rendered pretty_list results_array index' out'.
Proof.
  induction ks as [| c ks IH]; simpl; intros index out index' out' Hr Hrun.
  - inversion Hrun; subst. assumption.
  - destruct (body index c) as [i o | v o | e o] eqn:Hstep;
      try discriminate.
    apply (IH i (out ++ o)%list index' out'); [| assumption].
    destruct Hr as [Hlast Hno].
    destruct (body_continue_output _ _ _ _ Hstep) as [[-> ->] | [-> _]].
    + rewrite app_nil_r. now split.
    + split; [apply last_last |].
      rewrite existsb_app, Hno. reflexivity.
Qed.

(** Without a terminal key the loop is still reading. *)
Lemma loop_blocks (ks : list ascii) :
  forall index out,
    existsb terminal_key ks = false ->
    exists index' out', loop index out ks = Blocked index' out'.
Proof.
  induction ks as [| c ks IH]; simpl; intros index out Hnone; [eauto |].
  apply orb_false_iff in Hnone. destruct Hnone as [Hc Hks].
  destruct (body index c) as [i o | v o | e o] eqn:Hstep.
  - now apply IH.
  - exfalso. destruct (body_return_inv _ _ _ _ Hstep)
      as [[[-> | ->] _] | [-> _]]; discriminate.
  - exfalso. destruct (key_cases c) as [-> | [-> | [-> | [-> | [-> | Hc']]]]];
      try discriminate.
    + rewrite body_down in Hstep.
      destruct (index <? size - 1); discriminate.
    + rewrite body_up in Hstep.
      destruct (index >? 0); discriminate.
    + rewrite (body_other _ _ Hc') in Hstep. discriminate.
Qed.

(** With a terminal key, and the cursor inside the model, the loop
    returns: [None] or an identifier of the model. *)
Lemma loop_returns (ks : list ascii) :
  forall index out,
    in_bounds results_array index ->
    existsb terminal_key ks = true ->
    exists v out',
      loop index out ks = Returned v out' /\
      (v = None \/
       exists id, v = Some id /\ In id (OrderedDict.keys results_array)).
Proof.
  induction ks as [| c ks IH]; simpl; intros index out Hb Hsome;
    [discriminate |].
  destruct (body index c) as [i o | v o | e o] eqn:Hstep.
  - destruct (terminal_key c) eqn:Hc.
    + exfalso. unfold terminal_key in Hc.
      repeat (apply orb_true_iff in Hc; destruct Hc as [Hc | Hc]);
        apply Ascii.eqb_eq in Hc; subst c.
      * rewrite body_cancel in Hstep by tauto. discriminate.
      * rewrite body_cancel in Hstep by tauto. discriminate.
      * rewrite body_confirm in Hstep.
        destruct (identifierAt results_array index); discriminate.
    + simpl in Hsome. apply IH; [| assumption].
      now apply body_keeps_bounds with index c o.
  - exists v, (out ++ o)%list. split; [reflexivity |].
    destruct (body_return_inv _ _ _ _ Hstep)
      as [[_ [-> _]] | [_ [id [Hid [-> _]]]]]; [now left | right].
    exists id. split; [reflexivity |].
    destruct (confirm_in_bounds index Hb) as [id' [Hid' Hnth]].
    rewrite Hid in Hid'. inversion Hid'; subst.
    now apply nth_error_In with (Z.to_nat index).
  - exfalso. destruct (confirm_in_bounds index Hb) as [id [Hid _]].
    destruct (key_cases c) as [-> | [-> | [-> | [-> | [-> | Hc']]]]].
    + rewrite body_cancel in Hstep by tauto. discriminate.
    + rewrite body_cancel in Hstep by tauto. discriminate.
    + rewrite body_down in Hstep.
      destruct (index <? size - 1); discriminate.
    + rewrite body_up in Hstep.
      destruct (index >? 0); discriminate.
    + rewrite body_confirm, Hid in Hstep. discriminate.
    + rewrite (body_other _ _ Hc') in Hstep. discriminate.
Qed.

(** A return comes from one pass on a key, taken from a state in which
    the loop was reading. *)
Lemma loop_returned_inv (ks : list ascii) :
  forall index out v out',
    loop index out ks = Returned v out' ->
    exists pre c post index' o o',
      ks = (pre ++ c :: post)%list /\
      loop index out pre = Blocked index' o /\
      body index' c = Return v o' /\
      out' = (o ++ o')%list.
Proof.
  induction ks as [| c ks IH]; simpl; intros index out v out' Hrun;
    [discriminate |].
  destruct (body index c) as [i o | v0 o | e o] eqn:Hstep;
    try discriminate.
  - destruct (IH _ _ _ _ Hrun)
      as [pre [c' [post [index' [o1 [o2 [-> [Hpre [Hc' ->]]]]]]]]].
    exists (c :: pre), c', post, index', o1, o2.
    simpl. rewrite Hstep. auto.
  - inversion Hrun; subst.
    exists [], c, ks, index, out, o. auto.
Qed.

(** [n] presses of the down key from [index], when there is room. *)
Lemma loop_down (n : nat) :
  forall index out,
    index + Z.of_nat n <= size - 1 ->
    exists out',
      loop index out (repeat key_j n) = Blocked (index + Z.of_nat n) out'.
Proof.
  induction n as [| n IH]; intros index out Hroom.
  - exists out. simpl. now rewrite Z.add_0_r.
  - cbn [repeat scroll_loop]. rewrite body_down.
    replace (index <? size - 1) with true by (symmetry; apply Z.ltb_lt; lia).
    destruct (IH (index + 1)
                (out ++ [Reprint (pretty_list rows (index + 1))])%list)
      as [out' Hrun]; [lia |].
    exists out'. rewrite Hrun. f_equal. lia.
Qed.

End PickerLemmas.


(* ================================================================= *)
(** ** Lemmas: the model handed to the picker *)

Lemma setitem_nonempty {V : Type} (d : OrderedDict.t V) (k : string) (v : V) :
  OrderedDict.setitem d k v <> [].
Proof.
  destruct d as [| [k' v'] d]; simpl; [discriminate |].
  destruct (String.eqb k' k); discriminate.
Qed.

Lemma add_items_nonempty (kind : string) (items : list item) :
  forall d d' : ResultModel,
    d <> [] -> add_items kind d items = Ok d' -> d' <> [].
Proof.
  induction items as [| it rest IH]; simpl; intros d d' Hne Hrun.
  - inversion Hrun. now subst.
  - destruct (add_item kind d it) as [d1 | e] eqn:Hadd; simpl in Hrun;
      [| discriminate].
    apply (IH d1 d'); [| assumption].
    destruct (add_item_cases _ _ _ _ Hadd) as [-> | [fields ->]];
      [assumption | apply setitem_nonempty].
Qed.

Lemma add_item_assigns (kind : string) (d d' : ResultModel) (it : item) :
  In kind kinds ->
  add_item kind d it = Ok d' ->
  exists fields, d' = OrderedDict.setitem d (uri it) fields.
Proof.
  intros Hkind. unfold add_item, bind.
  destruct Hkind as [<- | [<- | [<- | []]]]; simpl.
  - destruct (get_artists it) as [l | e]; [| discriminate].
    destruct (subscript l 0) as [a | e]; [| discriminate].
    destruct (get_album it) as [al | e]; [| discriminate].
    intros H. inversion H. eauto.
  - intros H. inversion H. eauto.
  - destruct (get_artists it) as [l | e]; [| discriminate].
    destruct (subscript l 0) as [a | e]; [| discriminate].
    intros H. inversion H. eauto.
Qed.

(** A model that was returned for one of the three kinds is not empty. *)
Lemma model_nonempty (kind : string) (items : list item) (m : ResultModel) :
  In kind kinds ->
  get_search_result_dict items kind = Ok (Some m) -> m <> [].
Proof.
  intros Hkind.
  unfold get_search_result_dict.
  destruct items as [| it rest]; [discriminate |].
  cbn [add_items].
  destruct (add_item kind OrderedDict.empty it) as [d1 | e] eqn:Hadd;
    [| discriminate].
  cbn [bind].
  destruct (add_items kind d1 rest) as [d2 | e] eqn:Hrun;
    [| discriminate].
  cbn [bind]. intros H. inversion H; subst.
  apply (add_items_nonempty kind rest d1 m); [| assumption].
  destruct (add_item_assigns _ _ _ _ Hkind Hadd) as [fields ->].
  apply setitem_nonempty.
Qed.

Lemma truthy_nonempty {V : Type} (d : OrderedDict.t V) :
  d <> [] -> OrderedDict.truthy d = true.
Proof. destruct d; [congruence | reflexivity]. Qed.

Lemma no_OpenUri_in_terminal_output (out : list term_event) (u : string) :
  ~ In (OpenUri u) (map Term out).
Proof.
  intros Hin. apply in_map_iff in Hin. destruct Hin as [e [He _]].
  discriminate.
Qed.

(* ================================================================= *)
(** ** The picker *)

Section PickerTheorems.

Variable pretty_list : list (list string) -> Z -> string.
Variable results_array : ResultModel.
Variable results_len : Z.

Local Abbreviation run :=
  (let_user_scroll pretty_list results_array results_len).
Local Abbreviation body := (loop_body pretty_list results_array results_len).
Local Abbreviation size := (OrderedDict.size results_array).
Local Abbreviation rows := (OrderedDict.values results_array).

Lemma run_snoc (ks : list ascii) (c : ascii) (index : Z)
  (out : list term_event) :
  run ks = Blocked index out ->
  run (ks ++ [c]) =
  match body index c with
  | Continue i o => Blocked i (out ++ o)
  | Return v o => Returned v (out ++ o)
  | Raise e o => Raised e (out ++ o)
  end.
Proof. apply loop_snoc. Qed.

Lemma run_in_bounds (ks : list ascii) (index : Z) (out : list term_event) :
  results_array <> [] ->
  run ks = Blocked index out ->
  in_bounds results_array index.
Proof.
  intros Hne Hrun.
  apply (loop_keeps_bounds pretty_list results_array results_len ks
           0 [Reprint (pretty_list rows 0)] index out); [| exact Hrun].
  now apply nonempty_in_bounds.
Qed.

Lemma run_rendered (ks : list ascii) (index : Z) (out : list term_event) :
  run ks = Blocked index out ->
  rendered pretty_list results_array index out.
Proof.
  intros Hrun.
  apply (loop_keeps_rendered pretty_list results_array results_len ks
           0 [Reprint (pretty_list rows 0)] index out); [| exact Hrun].
  split; reflexivity.
Qed.

Lemma run_confirm (ks : list ascii) (index : Z) (out : list term_event) :
  results_array <> [] ->
  run ks = Blocked index out ->
  exists id,
    run (ks ++ [key_cr]) =
      Returned (Some id) (out ++ [Reprint ""; Moveup (results_len + 10)]) /\
    identifierAt results_array index = Ok id /\
    nth_error (OrderedDict.keys results_array) (Z.to_nat index) = Some id.
Proof.
  intros Hne Hrun.
  pose proof (run_in_bounds ks index out Hne Hrun) as Hb.
  destruct (confirm_in_bounds results_array index Hb) as [id [Hid Hnth]].
  exists id. rewrite (run_snoc ks key_cr index out Hrun).
  rewrite body_confirm, Hid. repeat split; assumption.
Qed.

(** C2: from any state the loop can be in (non-empty model, any keys typed
    so far, cursor at [index]), the confirm key makes the picker return the
    identifier at [index]: the cursor is inside the model, so this is the
    [index]-th key, and it is the entry whose rendering was printed last. *)
Theorem confirm_returns_entry_under_cursor (ks : list ascii) (index : Z)
  (out : list term_event) :
  results_array <> [] ->
  run ks = Blocked index out ->
  exists id,
    run (ks ++ [key_cr]) =
      Returned (Some id) (out ++ [Reprint ""; Moveup (results_len + 10)]) /\
    identifierAt results_array index = Ok id /\
    0 <= index < size /\
    nth_error (OrderedDict.keys results_array) (Z.to_nat index) = Some id /\
    last out (Moveup 0) = Reprint (pretty_list rows index).
Proof.
  intros Hne Hrun.
  destruct (run_confirm ks index out Hne Hrun) as [id [Hret [Hid Hnth]]].
  exists id. repeat split; try assumption;
    try apply (run_in_bounds ks index out Hne Hrun).
  apply (run_rendered ks index out Hrun).
Qed.

(** C3: on a non-empty model the cursor satisfies [0 <= index < size]
    whenever the loop reads a key, whatever was typed before; and [size-1]
    presses of the down key lead to [size-1], where one more press leaves
    the cursor. *)
Theorem cursor_stays_in_bounds :
  results_array <> [] ->
  (forall (ks : list ascii) (index : Z) (out : list term_event),
      run ks = Blocked index out -> 0 <= index < size) /\
  (exists out,
      run (repeat key_j (Z.to_nat (size - 1))) = Blocked (size - 1) out) /\
  (exists out,
      run (repeat key_j (Z.to_nat (size - 1)) ++ [key_j]) =
      Blocked (size - 1) out).
Proof.
  intros Hne.
  pose proof (nonempty_in_bounds results_array Hne) as H0.
  unfold in_bounds in H0.
  destruct (loop_down pretty_list results_array results_len
              (Z.to_nat (size - 1)) 0 [Reprint (pretty_list rows 0)])
    as [out Hdown]; [lia |].
  rewrite Z2Nat.id in Hdown by lia. rewrite Z.add_0_l in Hdown.
  split; [| split].
  - intros ks index out' Hrun. now apply (run_in_bounds ks index out').
  - exists out. exact Hdown.
  - exists out. rewrite (run_snoc _ key_j _ _ Hdown), body_down.
    rewrite Z.ltb_irrefl. now rewrite app_nil_r.
Qed.

(** C4: with the cursor on the last entry the down key, and with the
    cursor on the first entry the up key, changes neither the cursor nor
    the terminal output: the loop reads the next key from the same state.
    The cursor does not wrap. *)
Theorem boundary_navigation_is_noop (ks : list ascii) (index : Z)
  (out : list term_event) :
  run ks = Blocked index out ->
  (index = size - 1 ->
   body index key_j = Continue index [] /\
   run (ks ++ [key_j]) = Blocked index out) /\
  (index = 0 ->
   body index key_k = Continue index [] /\
   run (ks ++ [key_k]) = Blocked index out).
Proof.
  intros Hrun. split; intros ->.
  - rewrite (run_snoc _ key_j _ _ Hrun), body_down, Z.ltb_irrefl.
    now rewrite app_nil_r.
  - rewrite (run_snoc _ key_k _ _ Hrun), body_up. simpl.
    now rewrite app_nil_r.
Qed.

(** C8: a key that is none of j, k, carriage return, q and escape changes
    neither the cursor nor the terminal output, and the loop goes on
    reading. *)
Theorem unrecognized_keys_are_inert (ks : list ascii) (index : Z)
  (out : list term_event) (c : ascii) :
  c <> key_j -> c <> key_k -> c <> key_cr -> c <> key_q -> c <> key_esc ->
  run ks = Blocked index out ->
  body index c = Continue index [] /\
  run (ks ++ [c]) = Blocked index out.
Proof.
  intros Hj Hk Hcr Hq Hesc Hrun.
  assert (Hc : recognized_key c = false).
  { destruct (key_cases c) as [-> | [-> | [-> | [-> | [-> | Hc]]]]];
      congruence. }
  rewrite (run_snoc _ c _ _ Hrun), (body_other _ _ _ _ _ Hc).
  now rewrite app_nil_r.
Qed.

(** On a non-empty model the picker never raises; it reads exactly when no
    terminal key has been typed and has returned exactly when one has; the
    keys after the first terminal key are not read. *)
Lemma run_ends_at_first_terminal_key (ks : list ascii) :
  results_array <> [] ->
  (existsb terminal_key ks = false <->
   exists index out, run ks = Blocked index out) /\
  (existsb terminal_key ks = true <->
   exists v out, run ks = Returned v out) /\
  (forall v out, run ks = Returned v out ->
     v = None \/
     exists id, v = Some id /\ In id (OrderedDict.keys results_array)) /\
  (forall e out, run ks <> Raised e out) /\
  (forall pre c post,
     ks = (pre ++ c :: post)%list ->
     existsb terminal_key pre = false ->
     terminal_key c = true ->
     run ks = run (pre ++ [c])).
Proof.
  intros Hne.
  pose proof (nonempty_in_bounds results_array Hne) as H0.
  assert (Hblock : existsb terminal_key ks = false ->
                   exists index out, run ks = Blocked index out)
    by (intros H; now apply loop_blocks).
  assert (Hret : existsb terminal_key ks = true ->
                 exists v out,
                   run ks = Returned v out /\
                   (v = None \/
                    exists id, v = Some id /\
                               In id (OrderedDict.keys results_array)))
    by (intros H; now apply loop_returns).
  destruct (existsb terminal_key ks) eqn:Hks.
  - destruct (Hret eq_refl) as [v [out [Hrun Hv]]].
    split; [| split; [| split; [| split]]].
    + split; [discriminate |]. intros [i [o Hi]]. congruence.
    + split; [eauto | reflexivity].
    + intros v' out' Hrun'. rewrite Hrun in Hrun'. now inversion Hrun'; subst.
    + intros e o He. congruence.
    + intros pre c post -> Hpre Hc.
      destruct (loop_blocks pretty_list results_array results_len pre 0
                  [Reprint (pretty_list rows 0)] Hpre) as [i [o Hi]].
      unfold let_user_scroll. rewrite !loop_app, Hi. simpl.
      destruct (loop_body pretty_list results_array results_len i c)
        as [i' o' | v' o' | e o'] eqn:Hstep; try reflexivity.
      exfalso.
      assert (Hb : in_bounds results_array i)
        by (now apply (run_in_bounds pre i o)).
      destruct (loop_returns pretty_list results_array results_len [c] i o Hb)
        as [v' [out' [Hone _]]]; [simpl; now rewrite Hc |].
      simpl in Hone. rewrite Hstep in Hone. discriminate.
  - destruct (Hblock eq_refl) as [i [o Hrun]].
    split; [| split; [| split; [| split]]].
    + split; [eauto | reflexivity].
    + split; [discriminate |]. intros [v [out Hv]]. congruence.
    + intros v out Hv. congruence.
    + intros e out He. congruence.
    + intros pre c post -> _ Hc. exfalso.
      rewrite existsb_app in Hks. simpl in Hks. rewrite Hc in Hks.
      rewrite orb_true_r in Hks. discriminate.
Qed.

(** The key that ends the loop settles what is returned: from a state in
    which the loop reads, the confirm key returns the identifier under the
    cursor and a cancel key returns [None]. *)
Lemma run_terminal_key_value (pre post : list ascii) (c : ascii)
  (index : Z) (out : list term_event) :
  results_array <> [] ->
  run pre = Blocked index out ->
  (c = key_cr ->
   exists id,
     nth_error (OrderedDict.keys results_array) (Z.to_nat index) = Some id /\
     run (pre ++ c :: post) =
     Returned (Some id) (out ++ [Reprint ""; Moveup (results_len + 10)])) /\
  (c = key_q \/ c = key_esc ->
   run (pre ++ c :: post) = Returned None out).
Proof.
  intros Hne Hpre.
  assert (Hrun : run (pre ++ c :: post) =
                 scroll_loop pretty_list results_array results_len index out
                   (c :: post)).
  { unfold let_user_scroll in *. now rewrite loop_app, Hpre. }
  rewrite Hrun. cbn [scroll_loop]. split.
  - intros ->.
    destruct (confirm_in_bounds results_array index
                (run_in_bounds pre index out Hne Hpre)) as [id [Hid Hnth]].
    exists id. split; [assumption |].
    now rewrite body_confirm, Hid.
  - intros Hc. rewrite body_cancel by assumption. now rewrite app_nil_r.
Qed.

(** Conversely a value that was returned names the key that ended the
    loop: an identifier comes from the confirm key and is the one under the
    cursor, [None] comes from a cancel key. *)
Lemma run_returned_value_key (ks : list ascii) (v : option string)
  (out' : list term_event) :
  results_array <> [] ->
  run ks = Returned v out' ->
  exists pre c post index out,
    ks = (pre ++ c :: post)%list /\
    run pre = Blocked index out /\
    ((c = key_cr /\
      exists id,
        v = Some id /\
        nth_error (OrderedDict.keys results_array) (Z.to_nat index) = Some id)
     \/
     ((c = key_q \/ c = key_esc) /\ v = None)).
Proof.
  intros Hne Hrun. unfold let_user_scroll in Hrun.
  destruct (loop_returned_inv _ _ _ ks _ _ _ _ Hrun)
    as [pre [c [post [index [o [o' [-> [Hpre [Hc _]]]]]]]]].
  exists pre, c, post, index, o.
  split; [reflexivity |]. split; [exact Hpre |].
  destruct (body_return_inv _ _ _ _ _ _ _ Hc)
    as [[Hkey [-> _]] | [-> [id [Hid [-> _]]]]]; [right; tauto | left].
  split; [reflexivity |]. exists id. split; [reflexivity |].
  destruct (confirm_in_bounds results_array index
              (run_in_bounds pre index o Hne Hpre)) as [id' [Hid' Hnth]].
  congruence.
Qed.

(** C7: on a non-empty model the picker never raises; it is still reading
    exactly when no terminal key (carriage return, q, escape) has been
    typed, and it has returned exactly when one has, the keys after the
    first terminal key not being read.  What it returns is settled by that
    key: the confirm key returns the identifier under the cursor, a cancel
    key returns [None]; and conversely an identifier is only returned on
    the confirm key and [None] only on a cancel key. *)
Theorem picker_returns_on_terminal_keys_only (ks : list ascii) :
  results_array <> [] ->
  (existsb terminal_key ks = false <->
   exists index out, run ks = Blocked index out) /\
  (existsb terminal_key ks = true <->
   exists v out, run ks = Returned v out) /\
  (forall v out, run ks = Returned v out ->
     v = None \/
     exists id, v = Some id /\ In id (OrderedDict.keys results_array)) /\
  (forall e out, run ks <> Raised e out) /\
  (forall pre c post,
     ks = (pre ++ c :: post)%list ->
     existsb terminal_key pre = false ->
     terminal_key c = true ->
     run ks = run (pre ++ [c])) /\
  (forall pre c post index out,
     ks = (pre ++ c :: post)%list ->
     run pre = Blocked index out ->
     (c = key_cr ->
      exists id,
        nth_error (OrderedDict.keys results_array) (Z.to_nat index)
          = Some id /\
        run ks =
        Returned (Some id)
          (out ++ [Reprint ""; Moveup (results_len + 10)])) /\
     (c = key_q \/ c = key_esc -> run ks = Returned None out)) /\
  (forall v out',
     run ks = Returned v out' ->
     exists pre c post index out,
       ks = (pre ++ c :: post)%list /\
       run pre = Blocked index out /\
       ((c = key_cr /\
         exists id,
           v = Some id /\
           nth_error (OrderedDict.keys results_array) (Z.to_nat index)
             = Some id)
        \/
        ((c = key_q \/ c = key_esc) /\ v = None))).
Proof.
  intros Hne.
  destruct (run_ends_at_first_terminal_key ks Hne)
    as [Hreads [Hreturns [Hvalue [Hraise Hfirst]]]].
  repeat (split; [assumption |]).
  split.
  - intros pre c post index out -> Hpre.
    now apply run_terminal_key_value.
  - intros v out' Hrun. now apply run_returned_value_key with out'.
Qed.

(** A cancel key makes the picker return [None] from any state the loop
    can be in, with no further output. *)
Lemma run_cancel (ks : list ascii) (index : Z)
  (out : list term_event) (c : ascii) :
  c = key_q \/ c = key_esc ->
  run ks = Blocked index out ->
  run (ks ++ [c]) = Returned None out.
Proof.
  intros Hc Hrun.
  rewrite (run_snoc _ c _ _ Hrun), body_cancel by assumption.
  now rewrite app_nil_r.
Qed.

End PickerTheorems.

(* ================================================================= *)
(** ** The picker as [main] calls it *)

(** C5: a cancel key, q or escape, typed in any state the loop can be in,
    makes the picker return [None] with no further output; [main] then
    returns at once, and nothing it has done is a call of [OpenUri]. *)
Theorem cancel_yields_None_and_no_OpenUri
  (pretty_list : list (list string) -> Z -> string)
  (results_array : ResultModel) (ks : list ascii) (index : Z)
  (out : list term_event) (c : ascii) :
  c = key_q \/ c = key_esc ->
  let_user_scroll pretty_list results_array (len results_array) ks =
    Blocked index out ->
  let_user_scroll pretty_list results_array (len results_array) (ks ++ [c]) =
    Returned None out /\
  forall (items : list item) (search_terms : list string),
    get_search_result_dict items "tracks" = Ok (Some results_array) ->
    main_search pretty_list items search_terms (ks ++ [c]) =
      MainReturn (map Term out) /\
    forall u, ~ In (OpenUri u) (map Term out).
Proof.
  intros Hc Hrun.
  pose proof (run_cancel _ _ _ ks index out c Hc Hrun) as Hcancel.
  split; [exact Hcancel |].
  intros items search_terms Hbuild.
  split; [| intros u; apply no_OpenUri_in_terminal_output].
  unfold main_search, main_search_with. rewrite Hbuild.
  rewrite (truthy_nonempty _
             (model_nonempty _ _ _ tracks_in_kinds Hbuild)).
  now rewrite Hcancel.
Qed.

(** C6: the construction returns [None] exactly on an empty list of
    records, whatever the kind, and for the three kinds a model it returns
    is never empty; on [None], [main] prints the "no results" message and
    returns, without any output of the picker; and [main] never calls the
    picker on an empty model: its behaviour is the same for any two pickers
    that agree on the non-empty models. *)
Theorem empty_results_handling :
  (forall (items : list item) (kind : string),
      get_search_result_dict items kind = Ok None <-> items = []) /\
  (forall (items : list item) (kind : string) (m : ResultModel),
      In kind kinds ->
      get_search_result_dict items kind = Ok (Some m) -> m <> []) /\
  (forall (picker : ResultModel -> Z -> list ascii -> outcome)
          (items : list item) (search_terms : list string)
          (input : list ascii),
      get_search_result_dict items "tracks" = Ok None ->
      main_search_with picker items search_terms input =
      MainReturn
        [Print ("No results found for query: " ++ join " " search_terms)]) /\
  (forall (p1 p2 : ResultModel -> Z -> list ascii -> outcome),
      (forall m n input, m <> [] -> p1 m n input = p2 m n input) ->
      forall (items : list item) (search_terms : list string)
             (input : list ascii),
        main_search_with p1 items search_terms input =
        main_search_with p2 items search_terms input).
Proof.
  split; [| split; [| split]].
  - intros items kind. split.
    + destruct items as [| it rest]; [reflexivity |].
      unfold get_search_result_dict.
      destruct (add_items kind OrderedDict.empty (it :: rest)); discriminate.
    + intros ->. reflexivity.
  - intros items kind m Hkind Hbuild. now apply model_nonempty with kind items.
  - intros picker items search_terms input Hnone.
    unfold main_search_with. now rewrite Hnone.
  - intros p1 p2 Hagree items search_terms input.
    unfold main_search_with.
    destruct (get_search_result_dict items "tracks") as [[m |] | e];
      try reflexivity.
    destruct m as [| entry m]; [reflexivity |].
    cbn [OrderedDict.truthy]. rewrite Hagree by discriminate. reflexivity.
Qed.

Lemma empty_results_handling_witness :
  main_search_with (let_user_scroll show_index) tracks_ABC ["abc"] [key_cr] =
  main_search_with (picker_refusing_empty show_index) tracks_ABC ["abc"]
    [key_cr].
Proof.
  apply (proj2 (proj2 (proj2 empty_results_handling))).
  intros m n input Hne. destruct m; [congruence | reflexivity].
Defined.

(** C9: called as [main] calls it on a non-empty model, the picker has two
    ways out.  From any state the loop can be in, the confirm key appends
    the blank reprint and a move up of [size + 10] lines to the output and
    returns an identifier, while q and escape return [None] and append
    nothing; nothing was moved up before.  Conversely every return is one
    of these two. *)
Theorem exit_paths_restore_asymmetry
  (pretty_list : list (list string) -> Z -> string)
  (results_array : ResultModel) :
  results_array <> [] ->
  (forall (ks : list ascii) (index : Z) (out : list term_event),
      let_user_scroll pretty_list results_array (len results_array) ks =
        Blocked index out ->
      existsb is_Moveup out = false /\
      (exists id,
          let_user_scroll pretty_list results_array (len results_array)
            (ks ++ [key_cr]) =
          Returned (Some id)
            (out ++ [Reprint ""; Moveup (OrderedDict.size results_array + 10)]))
      /\
      let_user_scroll pretty_list results_array (len results_array)
        (ks ++ [key_q]) = Returned None out /\
      let_user_scroll pretty_list results_array (len results_array)
        (ks ++ [key_esc]) = Returned None out) /\
  (forall (ks : list ascii) (v : option string) (out' : list term_event),
      let_user_scroll pretty_list results_array (len results_array) ks =
        Returned v out' ->
      exists pre c post index out,
        ks = (pre ++ c :: post)%list /\
        let_user_scroll pretty_list results_array (len results_array) pre =
          Blocked index out /\
        existsb is_Moveup out = false /\
        (((c = key_q \/ c = key_esc) /\ v = None /\ out' = out) \/
         (c = key_cr /\ (exists id, v = Some id) /\
          out' =
            (out ++ [Reprint "";
                     Moveup (OrderedDict.size results_array + 10)])%list))).
Proof.
  intros Hne. split.
  - intros ks index out Hrun.
    split; [apply (run_rendered _ _ _ ks index out Hrun) |].
    split; [| split].
    + destruct (run_confirm pretty_list results_array
                  (len results_array) ks index out Hne Hrun)
        as [id [Hid _]].
      exists id. exact Hid.
    + apply (run_cancel _ _ _ ks index out); [tauto | exact Hrun].
    + apply (run_cancel _ _ _ ks index out); [tauto | exact Hrun].
  - intros ks v out' Hrun.
    destruct (loop_returned_inv _ _ _ ks _ _ _ _ Hrun)
      as [pre [c [post [index [o [o' [-> [Hpre [Hc ->]]]]]]]]].
    exists pre, c, post, index, o.
    split; [reflexivity |]. split; [exact Hpre |].
    split; [apply (run_rendered _ _ _ pre index o Hpre) |].
    destruct (body_return_inv _ _ _ _ _ _ _ Hc)
      as [[Hkey [-> ->]] | [-> [id [_ [-> ->]]]]].
    + left. rewrite app_nil_r. tauto.
    + right. split; [reflexivity |]. split; [eauto | reflexivity].
Qed.

(* ================================================================= *)
(** ** The theorems at work on three tracks A, B, C *)

Lemma model_ABC_built :
  get_search_result_dict tracks_ABC "tracks" = Ok (Some model_ABC).
Proof. reflexivity. Qed.

Lemma two_downs_on_ABC :
  let_user_scroll show_index model_ABC (len model_ABC) [key_j; key_j] =
  Blocked 2 out_after_two_downs.
Proof. reflexivity. Qed.

Lemma confirm_returns_entry_under_cursor_witness :
  model_ABC <> [] /\
  let_user_scroll show_index model_ABC (len model_ABC) [key_j; key_j] =
    Blocked 2 out_after_two_downs /\
  exists id,
    let_user_scroll show_index model_ABC (len model_ABC)
      ([key_j; key_j] ++ [key_cr]) =
      Returned (Some id)
        (out_after_two_downs ++ [Reprint ""; Moveup (len model_ABC + 10)]) /\
    identifierAt model_ABC 2 = Ok id /\
    0 <= 2 < OrderedDict.size model_ABC /\
    nth_error (OrderedDict.keys model_ABC) (Z.to_nat 2) = Some id /\
    last out_after_two_downs (Moveup 0) =
      Reprint (show_index (OrderedDict.values model_ABC) 2).
Proof.
  split; [discriminate |].
  split; [exact two_downs_on_ABC |].
  apply (confirm_returns_entry_under_cursor show_index model_ABC
           (len model_ABC) [key_j; key_j] 2 out_after_two_downs).
  - discriminate.
  - exact two_downs_on_ABC.
Defined.

Lemma cursor_stays_in_bounds_witness :
  model_ABC <> [] /\
  (forall (ks : list ascii) (index : Z) (out : list term_event),
      let_user_scroll show_index model_ABC (len model_ABC) ks =
        Blocked index out ->
      0 <= index < OrderedDict.size model_ABC) /\
  (exists out,
      let_user_scroll show_index model_ABC (len model_ABC)
        (repeat key_j (Z.to_nat (OrderedDict.size model_ABC - 1))) =
      Blocked (OrderedDict.size model_ABC - 1) out) /\
  (exists out,
      let_user_scroll show_index model_ABC (len model_ABC)
        (repeat key_j (Z.to_nat (OrderedDict.size model_ABC - 1)) ++ [key_j]) =
      Blocked (OrderedDict.size model_ABC - 1) out).
Proof.
  split; [discriminate |].
  apply (cursor_stays_in_bounds show_index model_ABC (len model_ABC)).
  discriminate.
Defined.

Lemma boundary_navigation_is_noop_witness :
  let_user_scroll show_index model_ABC (len model_ABC) [key_j; key_j] =
    Blocked 2 out_after_two_downs /\
  (2 = OrderedDict.size model_ABC - 1 ->
   loop_body show_index model_ABC (len model_ABC) 2 key_j = Continue 2 [] /\
   let_user_scroll show_index model_ABC (len model_ABC)
     ([key_j; key_j] ++ [key_j]) = Blocked 2 out_after_two_downs) /\
  (2 = 0 ->
   loop_body show_index model_ABC (len model_ABC) 2 key_k = Continue 2 [] /\
   let_user_scroll show_index model_ABC (len model_ABC)
     ([key_j; key_j] ++ [key_k]) = Blocked 2 out_after_two_downs).
Proof.
  split; [exact two_downs_on_ABC |].
  apply (boundary_navigation_is_noop show_index model_ABC (len model_ABC)
           [key_j; key_j] 2 out_after_two_downs).
  exact two_downs_on_ABC.
Defined.

Lemma unrecognized_keys_are_inert_witness :
  "x"%char <> key_j /\ "x"%char <> key_k /\ "x"%char <> key_cr /\
  "x"%char <> key_q /\ "x"%char <> key_esc /\
  let_user_scroll show_index model_ABC (len model_ABC) [key_j; key_j] =
    Blocked 2 out_after_two_downs /\
  loop_body show_index model_ABC (len model_ABC) 2 "x"%char = Continue 2 [] /\
  let_user_scroll show_index model_ABC (len model_ABC)
    ([key_j; key_j] ++ ["x"%char]) = Blocked 2 out_after_two_downs.
Proof.
  assert (Hj : "x"%char <> key_j) by (unfold key_j; discriminate).
  assert (Hk : "x"%char <> key_k) by (unfold key_k; discriminate).
  assert (Hcr : "x"%char <> key_cr) by (unfold key_cr; discriminate).
  assert (Hq : "x"%char <> key_q) by (unfold key_q; discriminate).
  assert (Hesc : "x"%char <> key_esc) by (unfold key_esc; discriminate).
  repeat (split; [assumption |]).
  split; [exact two_downs_on_ABC |].
  apply (unrecognized_keys_are_inert show_index model_ABC (len model_ABC)
           [key_j; key_j] 2 out_after_two_downs "x"%char);
    try assumption.
  exact two_downs_on_ABC.
Defined.

Lemma picker_returns_on_terminal_keys_only_witness :
  model_ABC <> [] /\
  (forall v out',
     let_user_scroll show_index model_ABC (len model_ABC)
       [key_j; key_cr; key_q] = Returned v out' ->
     exists pre c post index out,
       [key_j; key_cr; key_q] = (pre ++ c :: post)%list /\
       let_user_scroll show_index model_ABC (len model_ABC) pre =
         Blocked index out /\
       ((c = key_cr /\
         exists id,
           v = Some id /\
           nth_error (OrderedDict.keys model_ABC) (Z.to_nat index) = Some id)
        \/
        ((c = key_q \/ c = key_esc) /\ v = None))).
Proof.
  split; [discriminate |].
  apply (picker_returns_on_terminal_keys_only show_index model_ABC
           (len model_ABC) [key_j; key_cr; key_q] ltac:(discriminate)).
Defined.

Lemma cancel_yields_None_and_no_OpenUri_witness :
  (key_q = key_q \/ key_q = key_esc) /\
  let_user_scroll show_index model_ABC (len model_ABC) [key_j; key_j] =
    Blocked 2 out_after_two_downs /\
  let_user_scroll show_index model_ABC (len model_ABC)
    ([key_j; key_j] ++ [key_q]) = Returned None out_after_two_downs /\
  forall (items : list item) (search_terms : list string),
    get_search_result_dict items "tracks" = Ok (Some model_ABC) ->
    main_search show_index items search_terms ([key_j; key_j] ++ [key_q]) =
      MainReturn (map Term out_after_two_downs) /\
    forall u, ~ In (OpenUri u) (map Term out_after_two_downs).
Proof.
  split; [now left |].
  split; [exact two_downs_on_ABC |].
  apply (cancel_yields_None_and_no_OpenUri show_index model_ABC
           [key_j; key_j] 2 out_after_two_downs key_q).
  - now left.
  - exact two_downs_on_ABC.
Defined.

Lemma exit_paths_restore_asymmetry_witness :
  model_ABC <> [] /\
  exists id,
    let_user_scroll show_index model_ABC (len model_ABC)
      ([key_j; key_j] ++ [key_cr]) =
    Returned (Some id)
      (out_after_two_downs ++
       [Reprint ""; Moveup (OrderedDict.size model_ABC + 10)]).
Proof.
  split; [discriminate |].
  apply (proj1 (exit_paths_restore_asymmetry show_index model_ABC
                  ltac:(discriminate))
           [key_j; key_j] 2 out_after_two_downs two_downs_on_ABC).
Defined.

(** The scenarios of the specification, run through [main]. *)

Example scenario_down_down_confirm :
  main_search show_index tracks_ABC ["abc"] [key_j; key_j; key_cr] =
  MainFallThrough
    [ Term (Reprint "0"); Term (Reprint "1"); Term (Reprint "2");
      Term (Reprint ""); Term (Moveup 13); OpenUri "spotify:track:C" ].
Proof. reflexivity. Qed.

Example scenario_down_up_confirm :
  main_search show_index tracks_ABC ["abc"] [key_j; key_k; key_cr] =
  MainFallThrough
    [ Term (Reprint "0"); Term (Reprint "1"); Term (Reprint "0");
      Term (Reprint ""); Term (Moveup 13); OpenUri "spotify:track:A" ].
Proof. reflexivity. Qed.

Example scenario_cancel_immediately :
  let_user_scroll show_index model_ABC (len model_ABC) [key_q] =
    Returned None [Reprint "0"] /\
  main_search show_index tracks_ABC ["abc"] [key_q] =
    MainReturn [Term (Reprint "0")].
Proof. split; reflexivity. Qed.

Example scenario_no_results :
  get_search_result_dict [] "tracks" = Ok None /\
  main_search show_index [] ["abc"; "def"] [key_j; key_cr] =
    MainReturn [Print "No results found for query: abc def"].
Proof. split; reflexivity. Qed.

Example scenario_down_stops_at_last :
  let_user_scroll show_index model_ABC (len model_ABC)
    [key_j; key_j; key_j; key_j] = Blocked 2 out_after_two_downs.
Proof. reflexivity. Qed.

Example scenario_up_stops_at_first :
  let_user_scroll show_index model_ABC (len model_ABC) [key_k] =
    Blocked 0 [Reprint "0"].
Proof. reflexivity. Qed.

(* ================================================================= *)
(** ** More on [get_search_result_dict]: when it returns, when it raises *)

(** For the three kinds, a loop body that did not raise found every field
    it projects. *)
Lemma add_item_ok_well_formed (kind : string) (d d' : ResultModel)
  (it : item) :
  In kind kinds -> add_item kind d it = Ok d' -> well_formed kind it.
Proof.
  intros Hkind. unfold well_formed, projection, first_artist, add_item, bind.
  unfold get_artists, get_album.
  destruct Hkind as [<- | [<- | [<- | []]]]; simpl.
  - destruct (artists it) as [[| a l] |]; try discriminate.
    + rewrite subscript_head. destruct (item_album it); discriminate.
  - discriminate.
  - destruct (artists it) as [[| a l] |]; discriminate.
Qed.

Lemma add_items_ok_well_formed (kind : string) (items : list item) :
  In kind kinds ->
  forall d d' : ResultModel,
    add_items kind d items = Ok d' -> Forall (well_formed kind) items.
Proof.
  intros Hkind. induction items as [| it rest IH]; intros d d' Hrun;
    [constructor |].
  simpl in Hrun.
  destruct (add_item kind d it) as [d1 | e] eqn:Hadd; [| discriminate].
  constructor.
  - now apply add_item_ok_well_formed with d d1.
  - now apply IH with d1 d'.
Qed.

Lemma kind_not_listed (kind : string) :
  ~ In kind kinds ->
  String.eqb kind "tracks" = false /\
  String.eqb kind "artists" = false /\
  String.eqb kind "albums" = false.
Proof.
  intros Hnot. repeat split; apply String.eqb_neq; intros ->;
    apply Hnot; simpl; tauto.
Qed.

Lemma add_items_unknown_kind (kind : string) (items : list item) :
  ~ In kind kinds ->
  forall d : ResultModel, add_items kind d items = Ok d.
Proof.
  intros Hnot. destruct (kind_not_listed kind Hnot) as [Ht [Har Hal]].
  induction items as [| it rest IH]; intros d; simpl; [reflexivity |].
  unfold add_item. rewrite Ht, Har, Hal. simpl. apply IH.
Qed.

(** For the three kinds, a model was returned only if there was a record
    and every record carried the projected fields. *)
Lemma build_ok_well_formed (items : list item) (kind : string)
  (m : ResultModel) :
  In kind kinds ->
  get_search_result_dict items kind = Ok (Some m) ->
  items <> [] /\ Forall (well_formed kind) items.
Proof.
  intros Hkind Hbuild. unfold get_search_result_dict in Hbuild.
  destruct items as [| it rest]; [discriminate |].
  split; [discriminate |].
  destruct (add_items kind OrderedDict.empty (it :: rest)) as [d | e] eqn:Hrun;
    [| discriminate].
  now apply add_items_ok_well_formed with OrderedDict.empty d.
Qed.

(** X3: for a [search_type] that is none of tracks, artists, albums no
    branch of the loop body applies: on a non-empty answer the function
    returns an empty dict, not [None], and reads no field of any record. *)
Theorem build_unknown_kind_is_empty (items : list item) (kind : string) :
  ~ In kind kinds ->
  items <> [] ->
  get_search_result_dict items kind = Ok (Some []).
Proof.
  intros Hnot Hne. unfold get_search_result_dict.
  destruct items as [| it rest]; [congruence |].
  now rewrite (add_items_unknown_kind kind (it :: rest) Hnot).
Qed.

Lemma build_unknown_kind_is_empty_witness :
  ~ In "track" kinds /\
  [track_with_no_artist; track_without_artists] <> [] /\
  get_search_result_dict [track_with_no_artist; track_without_artists] "track"
  = Ok (Some []).
Proof.
  assert (Hnot : ~ In "track" kinds).
  { simpl. intros [H | [H | [H | []]]]; discriminate. }
  split; [exact Hnot |].
  split; [discriminate |].
  apply (build_unknown_kind_is_empty _ "track" Hnot). discriminate.
Defined.

(** X4: whatever the records, a model returned for one of the three kinds
    has at least one and at most as many entries as there are records; its
    identifiers are the identifiers of the records, each once, in the order
    in which they first appear; and looking an identifier up gives the
    projection of the last record that has it. *)
Theorem returned_model_described (items : list item) (kind : string)
  (m : ResultModel) :
  In kind kinds ->
  get_search_result_dict items kind = Ok (Some m) ->
  1 <= OrderedDict.size m <= len items /\
  OrderedDict.keys m = first_occurrences (map uri items) /\
  (forall id,
      In id (OrderedDict.keys m) <-> exists it, In it items /\ uri it = id) /\
  (forall id,
      OrderedDict.get m id =
      match last_with id items with
      | Some it => projection kind it
      | None => None
      end).
Proof.
  intros Hkind Hbuild.
  destruct (build_ok_well_formed items kind m Hkind Hbuild) as [Hne Hwf].
  destruct (get_search_result_dict_spec kind items Hne Hwf)
    as [m' [Hm' [Hkeys Hget]]].
  rewrite Hbuild in Hm'. inversion Hm'; subst m'.
  split; [| split; [| split]]; try assumption.
  - pose proof (first_occurrences_length_le (map uri items)) as Hle.
    rewrite <- Hkeys in Hle. unfold OrderedDict.keys in Hle.
    rewrite !length_map in Hle.
    pose proof (model_nonempty kind items m Hkind Hbuild) as Hm.
    unfold OrderedDict.size, len. destruct m; [congruence |]. simpl in *. lia.
  - intros id. rewrite Hkeys, first_occurrences_In, in_map_iff.
    split; intros [it [H1 H2]]; exists it; tauto.
Qed.

Lemma returned_model_described_witness :
  In "tracks" kinds /\
  get_search_result_dict tracks_AAB "tracks" =
    Ok (Some [ ("spotify:track:A", ["second"; "y"; "q"]);
               ("spotify:track:B", ["third"; "z"; "r"]) ]) /\
  OrderedDict.keys [ ("spotify:track:A", ["second"; "y"; "q"]);
                     ("spotify:track:B", ["third"; "z"; "r"]) ] =
  first_occurrences (map uri tracks_AAB).
Proof.
  split; [exact tracks_in_kinds |].
  split; [reflexivity |].
  apply (returned_model_described tracks_AAB "tracks" _ tracks_in_kinds
           eq_refl).
Defined.

(* ================================================================= *)
(** ** [get_search_result_dict] on JSON objects: absent keys *)

Ltac json_cases it :=
  let u := fresh "u" in
  let n := fresh "n" in
  let arts := fresh "arts" in
  let al := fresh "al" in
  let an := fresh "an" in
  let l := fresh "l" in
  let aln := fresh "aln" in
  destruct it as [u n arts al];
  destruct u; destruct n;
  destruct arts as [[| [[an |]] l] |];
  destruct al as [[[aln |]] |].

Ltac json_solve :=
  simpl in *;
  repeat match goal with
         | H : Some _ = Some _ |- _ => inversion H; subst; clear H
         | H : _ :: _ = _ :: _ |- _ => inversion H; subst; clear H
         end;
  simpl in *;
  try congruence; try reflexivity; try discriminate.

(** The two embeddings agree on a record that has every key. *)
Lemma json_add_item_of_item (kind : string) (d : ResultModel) (it : item) :
  Json.add_item kind d (of_item it) = add_item kind d it.
Proof.
  unfold Json.add_item, add_item, get_artists, get_album, Json.getitem.
  destruct it as [u n arts al].
  destruct arts as [[| [an] l] |]; destruct al as [[aln] |];
    destruct (String.eqb kind "tracks"); try reflexivity;
    destruct (String.eqb kind "artists"); try reflexivity;
    destruct (String.eqb kind "albums"); reflexivity.
Qed.

Lemma json_get_search_result_dict_of_item (items : list item)
  (kind : string) :
  Json.get_search_result_dict (map of_item items) kind =
  get_search_result_dict items kind.
Proof.
  assert (Hloop : forall d,
             Json.add_items kind d (map of_item items) =
             add_items kind d items).
  { induction items as [| it rest IH]; intros d; simpl; [reflexivity |].
    rewrite json_add_item_of_item.
    destruct (add_item kind d it); simpl; [apply IH | reflexivity]. }
  unfold Json.get_search_result_dict, get_search_result_dict.
  destruct items as [| it rest]; [reflexivity |].
  change (of_item it :: map of_item rest) with (map of_item (it :: rest)).
  now rewrite Hloop.
Qed.

(** On an object that has every key, the loop body assigns the fields
    under the identifier. *)
Lemma json_add_item_complete (kind : string) (d : ResultModel)
  (it : Json.item) :
  Json.complete kind it ->
  exists u f,
    Json.uri it = Some u /\ Json.fields kind it = Some f /\
    Json.add_item kind d it = Ok (OrderedDict.setitem d u f).
Proof.
  unfold Json.complete, Json.fields, Json.add_item, Json.getitem.
  unfold Json.first_artist_name, Json.album_name_of.
  intros [Hf Hu].
  destruct (String.eqb kind "tracks");
    [| destruct (String.eqb kind "artists");
       [| destruct (String.eqb kind "albums")]];
    json_cases it; json_solve; eauto.
Qed.

(** For the three kinds, a loop body that did not raise found every
    key. *)
Lemma json_add_item_ok (kind : string) (d d' : ResultModel)
  (it : Json.item) :
  In kind kinds -> Json.add_item kind d it = Ok d' -> Json.complete kind it.
Proof.
  unfold Json.complete, Json.fields, Json.add_item, Json.getitem.
  unfold Json.first_artist_name, Json.album_name_of.
  intros Hkind Hadd.
  destruct Hkind as [<- | [<- | [<- | []]]];
    json_cases it; json_solve; split; discriminate.
Qed.

Lemma json_add_items_complete (kind : string) (items : list Json.item) :
  Forall (Json.complete kind) items ->
  forall d, exists m, Json.add_items kind d items = Ok m.
Proof.
  induction 1 as [| it rest Hit Hrest IH]; intros d; simpl; [eauto |].
  destruct (json_add_item_complete kind d it Hit) as [u [f [_ [_ Hadd]]]].
  rewrite Hadd. simpl. apply IH.
Qed.

Lemma json_add_items_ok (kind : string) (items : list Json.item) :
  In kind kinds ->
  forall d d',
    Json.add_items kind d items = Ok d' -> Forall (Json.complete kind) items.
Proof.
  intros Hkind. induction items as [| it rest IH]; intros d d' Hrun;
    [constructor |].
  simpl in Hrun.
  destruct (Json.add_item kind d it) as [d1 | e] eqn:Hadd; [| discriminate].
  constructor.
  - now apply json_add_item_ok with d d1.
  - now apply IH with d1 d'.
Qed.

Lemma json_add_items_app (kind : string) (l1 l2 : list Json.item) :
  forall d : ResultModel,
    Json.add_items kind d (l1 ++ l2) =
    (d1 <- Json.add_items kind d l1 ;; Json.add_items kind d1 l2).
Proof.
  induction l1 as [| it l1 IH]; intros d; simpl; [reflexivity |].
  destruct (Json.add_item kind d it) as [d1 | e]; simpl;
    [apply IH | reflexivity].
Qed.

(** The objects before a bad one are assigned, the bad one raises, the
    objects after it are not looked at. *)
Lemma json_build_raises_at (kind : string) (pre post : list Json.item)
  (it : Json.item) (e : exn) :
  Forall (Json.complete kind) pre ->
  (forall d, Json.add_item kind d it = Err e) ->
  Json.get_search_result_dict (pre ++ it :: post) kind = Err e.
Proof.
  intros Hpre Hbad.
  assert (Hloop : Json.add_items kind OrderedDict.empty (pre ++ it :: post)
                  = Err e).
  { rewrite json_add_items_app.
    destruct (json_add_items_complete kind pre Hpre OrderedDict.empty)
      as [m Hrun].
    rewrite Hrun. simpl. now rewrite Hbad. }
  unfold Json.get_search_result_dict. rewrite Hloop. now destruct pre.
Qed.

Lemma two_kinds (kind : string) :
  In kind kinds -> kind <> "artists" -> kind = "tracks" \/ kind = "albums".
Proof. intros [<- | [<- | [<- | []]]] Hne; tauto. Qed.

(** X1: for each of the three kinds, and objects in which any key may be
    absent, the construction returns a dict exactly when there is at least
    one object and every object has all the keys the kind reads: [name]
    and [uri], for tracks and albums a first artist with a [name], for
    tracks an [album] with a [name].  In every other case it returns
    [None] (no object) or raises. *)
Theorem build_returns_model_iff (items : list Json.item) (kind : string) :
  In kind kinds ->
  ((exists m, Json.get_search_result_dict items kind = Ok (Some m)) <->
   items <> [] /\ Forall (Json.complete kind) items).
Proof.
  intros Hkind. split.
  - intros [m Hbuild]. unfold Json.get_search_result_dict in Hbuild.
    destruct items as [| it rest]; [discriminate |].
    split; [discriminate |].
    destruct (Json.add_items kind OrderedDict.empty (it :: rest))
      as [d | e] eqn:Hrun; [| discriminate].
    now apply json_add_items_ok with OrderedDict.empty d.
  - intros [Hne Hall].
    destruct (json_add_items_complete kind items Hall OrderedDict.empty)
      as [m Hrun].
    exists m. unfold Json.get_search_result_dict.
    destruct items as [| it rest]; [congruence |]. now rewrite Hrun.
Qed.

Lemma build_returns_model_iff_witness :
  In "tracks" kinds /\
  ((exists m,
       Json.get_search_result_dict (map of_item tracks_AAB) "tracks" =
       Ok (Some m)) <->
   map of_item tracks_AAB <> [] /\
   Forall (Json.complete "tracks") (map of_item tracks_AAB)).
Proof.
  split; [exact tracks_in_kinds |].
  apply (build_returns_model_iff (map of_item tracks_AAB) "tracks").
  exact tracks_in_kinds.
Defined.

(** X2: the first object that lacks a key decides the exception, whatever
    comes after it, and the keys are read in the order of the source:
    [name] first ([KeyError] name); then, for tracks and albums, [artists]
    ([KeyError] artists), its first element ([IndexError] on an empty
    list) and that artist's [name] ([KeyError] name); then, for tracks,
    [album] ([KeyError] album) and its [name] ([KeyError] name); and last,
    with every field found, [uri] ([KeyError] uri). *)
Theorem build_raises_at_first_bad_record (kind : string)
  (pre post : list Json.item) (it : Json.item) :
  In kind kinds ->
  Forall (Json.complete kind) pre ->
  let r := Json.get_search_result_dict (pre ++ it :: post) kind in
  (Json.name it = None -> r = Err (KeyError "name")) /\
  (Json.name it <> None -> kind <> "artists" ->
   Json.artists it = None -> r = Err (KeyError "artists")) /\
  (Json.name it <> None -> kind <> "artists" ->
   Json.artists it = Some [] -> r = Err IndexError) /\
  (Json.name it <> None -> kind <> "artists" ->
   forall a l, Json.artists it = Some (a :: l) ->
               Json.artist_name a = None -> r = Err (KeyError "name")) /\
  (Json.name it <> None -> kind = "tracks" ->
   Json.first_artist_name it <> None ->
   Json.item_album it = None -> r = Err (KeyError "album")) /\
  (Json.name it <> None -> kind = "tracks" ->
   Json.first_artist_name it <> None ->
   forall al, Json.item_album it = Some al ->
              Json.album_name al = None -> r = Err (KeyError "name")) /\
  (Json.fields kind it <> None ->
   Json.uri it = None -> r = Err (KeyError "uri")).
Proof.
  intros Hkind Hpre r. subst r.
  repeat split.
  - intros Hname. apply json_build_raises_at; [assumption |]. intros d.
    unfold Json.add_item, Json.getitem.
    destruct Hkind as [<- | [<- | [<- | []]]]; json_cases it; json_solve.
  - intros Hname Hk Harts. apply json_build_raises_at; [assumption |].
    intros d. unfold Json.add_item, Json.getitem.
    destruct (two_kinds kind Hkind Hk) as [-> | ->];
      json_cases it; json_solve.
  - intros Hname Hk Harts. apply json_build_raises_at; [assumption |].
    intros d. unfold Json.add_item, Json.getitem.
    destruct (two_kinds kind Hkind Hk) as [-> | ->];
      json_cases it; json_solve.
  - intros Hname Hk a l Harts Ha. apply json_build_raises_at; [assumption |].
    intros d. unfold Json.add_item, Json.getitem.
    destruct (two_kinds kind Hkind Hk) as [-> | ->];
      json_cases it; json_solve.
  - intros Hname -> Hartist Halbum.
    apply json_build_raises_at; [assumption |].
    intros d. unfold Json.add_item, Json.getitem.
    unfold Json.first_artist_name in Hartist.
    json_cases it; json_solve.
  - intros Hname -> Hartist al Halbum Hal.
    apply json_build_raises_at; [assumption |].
    intros d. unfold Json.add_item, Json.getitem.
    unfold Json.first_artist_name in Hartist.
    json_cases it; json_solve.
  - intros Hfields Huri. apply json_build_raises_at; [assumption |].
    intros d. unfold Json.add_item, Json.getitem.
    unfold Json.fields, Json.first_artist_name, Json.album_name_of in Hfields.
    destruct Hkind as [<- | [<- | [<- | []]]]; json_cases it; json_solve.
Qed.

Lemma build_raises_at_first_bad_record_witness :
  In "tracks" kinds /\
  Forall (Json.complete "tracks") (map of_item tracks_ABC) /\
  Json.get_search_result_dict
    (map of_item tracks_ABC ++ json_without_name :: [json_without_uri])
    "tracks" = Err (KeyError "name").
Proof.
  assert (Hpre : Forall (Json.complete "tracks") (map of_item tracks_ABC)).
  { repeat constructor; discriminate. }
  split; [exact tracks_in_kinds |].
  split; [exact Hpre |].
  apply (build_raises_at_first_bad_record "tracks" (map of_item tracks_ABC)
           [json_without_uri] json_without_name tracks_in_kinds Hpre).
  reflexivity.
Defined.

Example json_missing_uri_is_read_last :
  Json.get_search_result_dict [json_without_uri] "tracks" =
  Err (KeyError "uri").
Proof. reflexivity. Qed.

(* ================================================================= *)
(** ** [search_and_get_uri] *)

Lemma search_and_get_uri_of_head (items : list item) :
  search_and_get_uri_of items =
  Ok match items with
     | [] => None
     | it :: _ => Some (uri it)
     end.
Proof.
  unfold search_and_get_uri_of.
  destruct items as [| it rest]; cbn [truthy_list]; [reflexivity |].
  unfold bind. now rewrite subscript_head.
Qed.

(** X6: on the same non-empty answer, the identifier [search_and_get_uri]
    returns is the first identifier of the model [get_search_result_dict]
    builds, which is what the picker returns when the confirm key is the
    first key typed; repeated identifiers do not change this. *)
Theorem quickplay_agrees_with_first_entry (items : list item) (kind : string) :
  items <> [] ->
  Forall (well_formed kind) items ->
  exists (m : ResultModel) (u : string),
    get_search_result_dict items kind = Ok (Some m) /\
    search_and_get_uri_of items = Ok (Some u) /\
    identifierAt m 0 = Ok u /\
    forall (pretty_list : list (list string) -> Z -> string)
           (results_len : Z) (rest : list ascii),
      let_user_scroll pretty_list m results_len (key_cr :: rest) =
      Returned (Some u)
        [Reprint (pretty_list (OrderedDict.values m) 0); Reprint "";
         Moveup (results_len + 10)].
Proof.
  intros Hne Hwf.
  destruct (get_search_result_dict_spec kind items Hne Hwf)
    as [m [Hm [Hkeys _]]].
  destruct items as [| it rest]; [congruence |].
  exists m, (uri it).
  assert (Hid : identifierAt m 0 = Ok (uri it)).
  { unfold identifierAt. rewrite Hkeys. simpl. apply subscript_head. }
  split; [assumption |].
  split; [apply search_and_get_uri_of_head |].
  split; [assumption |].
  intros pretty_list results_len keys.
  unfold let_user_scroll. cbn [scroll_loop].
  rewrite body_confirm, Hid. reflexivity.
Qed.

Lemma quickplay_agrees_with_first_entry_witness :
  tracks_AAB <> [] /\
  Forall (well_formed "tracks") tracks_AAB /\
  exists (m : ResultModel) (u : string),
    get_search_result_dict tracks_AAB "tracks" = Ok (Some m) /\
    search_and_get_uri_of tracks_AAB = Ok (Some u) /\
    identifierAt m 0 = Ok u /\
    forall (pretty_list : list (list string) -> Z -> string)
           (results_len : Z) (rest : list ascii),
      let_user_scroll pretty_list m results_len (key_cr :: rest) =
      Returned (Some u)
        [Reprint (pretty_list (OrderedDict.values m) 0); Reprint "";
         Moveup (results_len + 10)].
Proof.
  split; [discriminate |].
  split; [exact tracks_AAB_well_formed |].
  apply (quickplay_agrees_with_first_entry tracks_AAB "tracks").
  - discriminate.
  - exact tracks_AAB_well_formed.
Defined.

(* ================================================================= *)
(** ** More on [let_user_scroll]: where the cursor goes *)

Section PickerWalks.

Variable pretty_list : list (list string) -> Z -> string.
Variable results_array : ResultModel.
Variable results_len : Z.

Local Abbreviation run :=
  (let_user_scroll pretty_list results_array results_len).
Local Abbreviation loop :=
  (scroll_loop pretty_list results_array results_len).
Local Abbreviation body := (loop_body pretty_list results_array results_len).
Local Abbreviation size := (OrderedDict.size results_array).
Local Abbreviation rows := (OrderedDict.values results_array).

Lemma run_app (ks1 ks2 : list ascii) (index : Z) (out : list term_event) :
  run ks1 = Blocked index out ->
  run (ks1 ++ ks2) = loop index out ks2.
Proof.
  intros Hrun. unfold let_user_scroll in *. now rewrite loop_app, Hrun.
Qed.

Lemma loop_down_clamped (n : nat) :
  forall index out,
    in_bounds results_array index ->
    exists out',
      loop index out (repeat key_j n) =
      Blocked (Z.min (index + Z.of_nat n) (size - 1)) out'.
Proof.
  unfold in_bounds.
  induction n as [| n IH]; intros index out Hb.
  - exists out. simpl. f_equal. lia.
  - cbn [repeat scroll_loop]. rewrite body_down.
    destruct (index <? size - 1) eqn:Hlt.
    + apply Z.ltb_lt in Hlt.
      destruct (IH (index + 1)
                  (out ++ [Reprint (pretty_list rows (index + 1))])%list)
        as [out' Hrun]; [lia |].
      exists out'. rewrite Hrun. f_equal. lia.
    + apply Z.ltb_ge in Hlt.
      destruct (IH index (out ++ [])%list) as [out' Hrun]; [lia |].
      exists out'. rewrite Hrun. f_equal. lia.
Qed.

Lemma loop_up_clamped (n : nat) :
  forall index out,
    in_bounds results_array index ->
    exists out',
      loop index out (repeat key_k n) =
      Blocked (Z.max (index - Z.of_nat n) 0) out'.
Proof.
  unfold in_bounds.
  induction n as [| n IH]; intros index out Hb.
  - exists out. simpl. f_equal. lia.
  - cbn [repeat scroll_loop]. rewrite body_up.
    destruct (index >? 0) eqn:Hgt; rewrite Z.gtb_ltb in Hgt.
    + apply Z.ltb_lt in Hgt.
      destruct (IH (index - 1)
                  (out ++ [Reprint (pretty_list rows (index - 1))])%list)
        as [out' Hrun]; [lia |].
      exists out'. rewrite Hrun. f_equal. lia.
    + apply Z.ltb_ge in Hgt.
      destruct (IH index (out ++ [])%list) as [out' Hrun]; [lia |].
      exists out'. rewrite Hrun. f_equal. lia.
Qed.

(** [i] presses of the down key reach position [i] when the model has
    one. *)
Lemma downs_reach (i : nat) :
  (i < List.length results_array)%nat ->
  exists out, run (repeat key_j i) = Blocked (Z.of_nat i) out.
Proof.
  intros Hlt.
  destruct (loop_down pretty_list results_array results_len i 0
              [Reprint (pretty_list rows 0)]) as [out Hdown].
  { unfold OrderedDict.size, len. lia. }
  rewrite Z.add_0_l in Hdown. now exists out.
Qed.

(** X7: every entry of the model can be chosen: [i] presses of the down
    key followed by the confirm key return the [i]-th identifier. *)
Theorem every_entry_can_be_selected (i : nat) (id : string) :
  nth_error (OrderedDict.keys results_array) i = Some id ->
  exists out,
    run (repeat key_j i ++ [key_cr]) = Returned (Some id) out.
Proof.
  intros Hnth.
  assert (Hlt : (i < List.length results_array)%nat).
  { rewrite <- (length_map fst). apply nth_error_Some.
    unfold OrderedDict.keys in Hnth. congruence. }
  destruct (downs_reach i Hlt) as [out Hdown].
  rewrite (run_app _ [key_cr] _ _ Hdown). cbn [scroll_loop].
  rewrite body_confirm. unfold identifierAt.
  rewrite (subscript_nth _ _ _ Hnth). eauto.
Qed.

(** X8: from a state in which the loop reads on a non-empty model, [n]
    presses of the down key put the cursor at [min (index + n) (size - 1)]
    and [n] presses of the up key at [max (index - n) 0]. *)
Theorem repeated_moves_are_clamped (ks : list ascii) (index : Z)
  (out : list term_event) (n : nat) :
  results_array <> [] ->
  run ks = Blocked index out ->
  (exists out',
      run (ks ++ repeat key_j n) =
      Blocked (Z.min (index + Z.of_nat n) (size - 1)) out') /\
  (exists out',
      run (ks ++ repeat key_k n) =
      Blocked (Z.max (index - Z.of_nat n) 0) out').
Proof.
  intros Hne Hrun.
  assert (Hb : in_bounds results_array index).
  { apply (loop_keeps_bounds pretty_list results_array results_len ks
             0 [Reprint (pretty_list rows 0)] index out);
      [now apply nonempty_in_bounds | exact Hrun]. }
  split.
  - rewrite (run_app _ _ _ _ Hrun). now apply loop_down_clamped.
  - rewrite (run_app _ _ _ _ Hrun). now apply loop_up_clamped.
Qed.

(** X9: below the last entry, down then up brings the cursor back, and
    above the first entry so does up then down; each of the two keys
    repaints, and the last repaint is the rendering of the old position. *)
Theorem opposite_moves_cancel (ks : list ascii) (index : Z)
  (out : list term_event) :
  results_array <> [] ->
  run ks = Blocked index out ->
  (index < size - 1 ->
   run (ks ++ [key_j; key_k]) =
   Blocked index
     (out ++ [Reprint (pretty_list rows (index + 1));
              Reprint (pretty_list rows index)])) /\
  (0 < index ->
   run (ks ++ [key_k; key_j]) =
   Blocked index
     (out ++ [Reprint (pretty_list rows (index - 1));
              Reprint (pretty_list rows index)])).
Proof.
  intros Hne Hrun.
  assert (Hb : in_bounds results_array index).
  { apply (loop_keeps_bounds pretty_list results_array results_len ks
             0 [Reprint (pretty_list rows 0)] index out);
      [now apply nonempty_in_bounds | exact Hrun]. }
  unfold in_bounds in Hb.
  split; intros Hroom; rewrite (run_app _ _ _ _ Hrun); cbn [scroll_loop].
  - rewrite body_down.
    replace (index <? size - 1) with true by (symmetry; apply Z.ltb_lt; lia).
    rewrite body_up.
    replace (index + 1 >? 0) with true
      by (symmetry; rewrite Z.gtb_ltb; apply Z.ltb_lt; lia).
    rewrite Z.add_simpl_r, <- app_assoc. reflexivity.
  - rewrite body_up.
    replace (index >? 0) with true
      by (symmetry; rewrite Z.gtb_ltb; apply Z.ltb_lt; lia).
    rewrite body_down.
    replace (index - 1 <? size - 1) with true
      by (symmetry; apply Z.ltb_lt; lia).
    rewrite Z.sub_add, <- app_assoc. reflexivity.
Qed.

(** While the loop reads, everything printed is the rendering of a
    position inside the model. *)
Lemma loop_output_in_bounds (ks : list ascii) :
  forall index out index' out',
    in_bounds results_array index ->
    Forall (fun e => exists i, 0 <= i < size /\
                               e = Reprint (pretty_list rows i)) out ->
    loop index out ks = Blocked index' out' ->
    Forall (fun e => exists i, 0 <= i < size /\
                               e = Reprint (pretty_list rows i)) out' /\
    (List.length out' <= List.length out + List.length ks)%nat.
Proof.
  induction ks as [| c ks IH]; simpl; intros index out index' out' Hb Hall Hrun.
  - inversion Hrun; subst. split; [assumption | lia].
  - destruct (body index c) as [i o | v o | e o] eqn:Hstep; try discriminate.
    pose proof (body_keeps_bounds _ _ _ _ _ _ _ Hb Hstep) as Hb'.
    destruct (IH i (out ++ o)%list index' out' Hb') as [Hall' Hlen];
      [| exact Hrun |].
    + apply Forall_app. split; [assumption |].
      destruct (body_continue_output _ _ _ _ _ _ _ Hstep)
        as [[-> _] | [-> _]]; [constructor |].
      constructor; [| constructor]. exists i. split; [exact Hb' | reflexivity].
    + split; [assumption |].
      rewrite length_app in Hlen.
      destruct (body_continue_output _ _ _ _ _ _ _ Hstep)
        as [[-> _] | [-> _]]; simpl in Hlen; lia.
Qed.

(** X12: on a non-empty model, whatever has been typed, all the picker
    has printed while it reads is renderings of positions inside the model,
    at most one per key after the first frame; it never asks for the
    rendering of a row that does not exist. *)
Theorem output_is_frames_of_valid_rows (ks : list ascii) (index : Z)
  (out : list term_event) :
  results_array <> [] ->
  run ks = Blocked index out ->
  Forall (fun e => exists i, 0 <= i < size /\
                             e = Reprint (pretty_list rows i)) out /\
  (List.length out <= 1 + List.length ks)%nat.
Proof.
  intros Hne Hrun.
  pose proof (nonempty_in_bounds results_array Hne) as H0.
  apply (loop_output_in_bounds ks 0 [Reprint (pretty_list rows 0)] index out);
    [assumption | | exact Hrun].
  constructor; [| constructor]. exists 0. split; [exact H0 | reflexivity].
Qed.

End PickerWalks.

Lemma every_entry_can_be_selected_witness :
  nth_error (OrderedDict.keys model_ABC) 2 = Some "spotify:track:C" /\
  exists out,
    let_user_scroll show_index model_ABC (len model_ABC)
      (repeat key_j 2 ++ [key_cr]) =
    Returned (Some "spotify:track:C") out.
Proof.
  split; [reflexivity |].
  apply (every_entry_can_be_selected show_index model_ABC (len model_ABC)
           2 "spotify:track:C").
  reflexivity.
Defined.

Lemma repeated_moves_are_clamped_witness :
  model_ABC <> [] /\
  let_user_scroll show_index model_ABC (len model_ABC) [key_j; key_j] =
    Blocked 2 out_after_two_downs /\
  (exists out',
      let_user_scroll show_index model_ABC (len model_ABC)
        ([key_j; key_j] ++ repeat key_j 5) =
      Blocked (Z.min (2 + Z.of_nat 5) (OrderedDict.size model_ABC - 1))
        out') /\
  (exists out',
      let_user_scroll show_index model_ABC (len model_ABC)
        ([key_j; key_j] ++ repeat key_k 5) =
      Blocked (Z.max (2 - Z.of_nat 5) 0) out').
Proof.
  split; [discriminate |].
  split; [exact two_downs_on_ABC |].
  apply (repeated_moves_are_clamped show_index model_ABC (len model_ABC)
           [key_j; key_j] 2 out_after_two_downs 5).
  - discriminate.
  - exact two_downs_on_ABC.
Defined.

Lemma opposite_moves_cancel_witness :
  model_ABC <> [] /\
  let_user_scroll show_index model_ABC (len model_ABC) [key_j] =
    Blocked 1 [Reprint "0"; Reprint "1"] /\
  (1 < OrderedDict.size model_ABC - 1 ->
   let_user_scroll show_index model_ABC (len model_ABC)
     ([key_j] ++ [key_j; key_k]) =
   Blocked 1
     ([Reprint "0"; Reprint "1"] ++
      [Reprint (show_index (OrderedDict.values model_ABC) (1 + 1));
       Reprint (show_index (OrderedDict.values model_ABC) 1)])) /\
  (0 < 1 ->
   let_user_scroll show_index model_ABC (len model_ABC)
     ([key_j] ++ [key_k; key_j]) =
   Blocked 1
     ([Reprint "0"; Reprint "1"] ++
      [Reprint (show_index (OrderedDict.values model_ABC) (1 - 1));
       Reprint (show_index (OrderedDict.values model_ABC) 1)])).
Proof.
  split; [discriminate |].
  split; [reflexivity |].
  apply (opposite_moves_cancel show_index model_ABC (len model_ABC)
           [key_j] 1 [Reprint "0"; Reprint "1"]).
  - discriminate.
  - reflexivity.
Defined.

Lemma output_is_frames_of_valid_rows_witness :
  model_ABC <> [] /\
  let_user_scroll show_index model_ABC (len model_ABC) [key_j; key_j] =
    Blocked 2 out_after_two_downs /\
  Forall (fun e => exists i, 0 <= i < OrderedDict.size model_ABC /\
                             e = Reprint (show_index
                                            (OrderedDict.values model_ABC) i))
    out_after_two_downs /\
  (List.length out_after_two_downs <= 1 + List.length [key_j; key_j])%nat.
Proof.
  split; [discriminate |].
  split; [exact two_downs_on_ABC |].
  apply (output_is_frames_of_valid_rows show_index model_ABC (len model_ABC)
           [key_j; key_j] 2 out_after_two_downs).
  - discriminate.
  - exact two_downs_on_ABC.
Defined.

(* ================================================================= *)
(** ** More on [let_user_scroll]: the empty model, and what the choice
       depends on *)

Lemma loop_on_empty_model (pretty_list : list (list string) -> Z -> string)
  (results_len : Z) (ks : list ascii) :
  forall out,
    existsb terminal_key ks = false ->
    scroll_loop pretty_list [] results_len 0 out ks = Blocked 0 out.
Proof.
  induction ks as [| c ks IH]; intros out Hnone; [reflexivity |].
  simpl in Hnone. apply orb_false_iff in Hnone. destruct Hnone as [Hc Hks].
  cbn [scroll_loop].
  assert (Hstep : loop_body pretty_list [] results_len 0 c = Continue 0 []).
  { destruct (key_cases c) as [-> | [-> | [-> | [-> | [-> | Hother]]]]];
      try discriminate; try reflexivity.
    now apply body_other. }
  rewrite Hstep, app_nil_r. now apply IH.
Qed.

(** X10: called on an empty dict, the picker cannot move: as long as no
    terminal key is typed it reads at position 0 having printed one frame;
    the confirm key then raises [IndexError], after the blank reprint and
    the move up, and a cancel key returns [None]. *)
Theorem picker_on_empty_model
  (pretty_list : list (list string) -> Z -> string) (results_len : Z)
  (ks post : list ascii) :
  existsb terminal_key ks = false ->
  let_user_scroll pretty_list [] results_len ks =
    Blocked 0 [Reprint (pretty_list [] 0)] /\
  let_user_scroll pretty_list [] results_len (ks ++ key_cr :: post) =
    Raised IndexError
      [Reprint (pretty_list [] 0); Reprint ""; Moveup (results_len + 10)] /\
  let_user_scroll pretty_list [] results_len (ks ++ key_q :: post) =
    Returned None [Reprint (pretty_list [] 0)].
Proof.
  intros Hnone. unfold let_user_scroll.
  pose proof (loop_on_empty_model pretty_list results_len ks
                [Reprint (pretty_list (OrderedDict.values []) 0)] Hnone)
    as Hrun.
  split; [exact Hrun |].
  split; rewrite loop_app, Hrun; reflexivity.
Qed.

Lemma picker_on_empty_model_witness :
  existsb terminal_key [key_j; key_k; "x"%char] = false /\
  let_user_scroll show_index [] 0 [key_j; key_k; "x"%char] =
    Blocked 0 [Reprint "0"] /\
  let_user_scroll show_index [] 0 ([key_j; key_k; "x"%char] ++ key_cr :: []) =
    Raised IndexError [Reprint "0"; Reprint ""; Moveup (0 + 10)] /\
  let_user_scroll show_index [] 0 ([key_j; key_k; "x"%char] ++ key_q :: []) =
    Returned None [Reprint "0"].
Proof.
  split; [reflexivity |].
  apply (picker_on_empty_model show_index 0 [key_j; key_k; "x"%char] []).
  reflexivity.
Defined.

(** Two passes of the loop body on the same model, cursor and key agree on
    everything but the text they print. *)
Lemma body_agrees (p1 p2 : list (list string) -> Z -> string)
  (m : ResultModel) (n1 n2 index : Z) (c : ascii) :
  match loop_body p1 m n1 index c, loop_body p2 m n2 index c with
  | Continue i1 o1, Continue i2 o2 =>
      i1 = i2 /\ List.length o1 = List.length o2
  | Return v1 _, Return v2 _ => v1 = v2
  | Raise e1 _, Raise e2 _ => e1 = e2
  | _, _ => False
  end.
Proof.
  destruct (key_cases c) as [-> | [-> | [-> | [-> | [-> | Hother]]]]].
  - reflexivity.
  - reflexivity.
  - rewrite !body_down. destruct (index <? OrderedDict.size m - 1); now split.
  - rewrite !body_up. destruct (index >? 0); now split.
  - rewrite !body_confirm. now destruct (identifierAt m index).
  - rewrite !body_other by assumption. now split.
Qed.

Lemma loop_agrees (p1 p2 : list (list string) -> Z -> string)
  (m : ResultModel) (n1 n2 : Z) (ks : list ascii) :
  forall index out1 out2,
    match scroll_loop p1 m n1 index out1 ks,
          scroll_loop p2 m n2 index out2 ks with
    | Returned v1 _, Returned v2 _ => v1 = v2
    | Raised e1 _, Raised e2 _ => e1 = e2
    | Blocked i1 _, Blocked i2 _ => i1 = i2
    | _, _ => False
    end.
Proof.
  induction ks as [| c ks IH]; intros index out1 out2; simpl; [reflexivity |].
  pose proof (body_agrees p1 p2 m n1 n2 index c) as Hstep.
  destruct (loop_body p1 m n1 index c) as [i1 o1 | v1 o1 | e1 o1],
           (loop_body p2 m n2 index c) as [i2 o2 | v2 o2 | e2 o2];
    try contradiction; try assumption.
  destruct Hstep as [-> _]. apply IH.
Qed.

(** X11: what the picker returns, whether it raises, and where the cursor
    stands depend on the model and the keys only: neither the rendering of
    the list nor the [results_len] argument has a part in it. *)
Theorem choice_is_independent_of_rendering
  (p1 p2 : list (list string) -> Z -> string) (m : ResultModel)
  (n1 n2 : Z) (ks : list ascii) :
  match let_user_scroll p1 m n1 ks, let_user_scroll p2 m n2 ks with
  | Returned v1 _, Returned v2 _ => v1 = v2
  | Raised e1 _, Raised e2 _ => e1 = e2
  | Blocked i1 _, Blocked i2 _ => i1 = i2
  | _, _ => False
  end.
Proof. unfold let_user_scroll. apply loop_agrees. Qed.

(* ================================================================= *)
(** ** The whole of [main] *)

Lemma show_current_track_trace (md : metadata) (before : list effect) :
  exists rest,
    trace (show_current_track md before) = (before ++ rest)%list /\
    filter is_player_command rest = [] /\
    (forall u, ~ In (Out (OpenUri u)) rest).
Proof.
  unfold show_current_track.
  destruct (match xesam_artist md with
            | Some l => a <- subscript l 0 ;; Ok ("Artist:" ++ tab ++ a)
            | None => Ok "Unknown"
            end) as [line | e];
    eexists; (split; [reflexivity |]); (split; [reflexivity |]);
    intros u Hin; simpl in Hin;
    repeat (destruct Hin as [Hin | Hin]; [discriminate |]); exact Hin.
Qed.

Lemma no_command_in_terminal_output (out : list term_event) :
  filter is_player_command (map Out (map Term out)) = [].
Proof. induction out as [| e out IH]; simpl; [reflexivity | exact IH]. Qed.

(** The shape of what the [search] branch leaves behind: terminal output,
    or the message, and after that at most one [OpenUri] of a string that
    is not empty. *)
Lemma main_search_shape (pretty_list : list (list string) -> Z -> string)
  (items : list item) (search_terms : list string) (input : list ascii) :
  match main_search pretty_list items search_terms input with
  | MainFallThrough t =>
      exists out c s,
        t = (map Term out ++ [OpenUri (String c s)])%list
  | MainReturn t | MainRaised _ t | MainBlocked t =>
      (exists out, t = map Term out) \/ (exists s, t = [Print s])
  end.
Proof.
  unfold main_search, main_search_with.
  destruct (get_search_result_dict items "tracks") as [[m |] | e].
  - destruct (OrderedDict.truthy m); [| right; eauto].
    destruct (let_user_scroll pretty_list m (len m) input)
      as [[[| c s] |] out | e out | i out]; eauto.
  - right. eauto.
  - left. now exists [].
Qed.

Lemma out_term_commands (out : list term_event) (extra : list effect) :
  filter is_player_command (map Out (map Term out) ++ extra) =
  filter is_player_command extra.
Proof. now rewrite filter_app, no_command_in_terminal_output. Qed.

Lemma in_out_term (out : list term_event) (u : string) :
  ~ In (Out (OpenUri u)) (map Out (map Term out)).
Proof.
  rewrite map_map. intros Hin. apply in_map_iff in Hin.
  destruct Hin as [e [He _]]. discriminate.
Qed.

Lemma guarded_show_current_track (md : metadata) (before : list effect) :
  guarded before -> guarded (trace (show_current_track md before)).
Proof.
  intros [Hlen Huri].
  destruct (show_current_track_trace md before) as [rest [-> [Hnone Hno]]].
  split.
  - now rewrite filter_app, Hnone, app_nil_r.
  - intros u Hin. apply in_app_or in Hin. destruct Hin as [Hin | Hin];
      [now apply Huri | now apply Hno in Hin].
Qed.

Lemma guarded_search_branch
  (pretty_list : list (list string) -> Z -> string) (w : world)
  (search_terms : list string) (num : string) (input : list ascii) :
  guarded (trace (search_branch pretty_list w search_terms num input)).
Proof.
  unfold search_branch.
  pose proof (main_search_shape pretty_list
                (spotify_search w (join " " search_terms) (LimitArg num)
                   (drop_last "tracks"))
                search_terms input) as Hshape.
  destruct (main_search pretty_list _ search_terms input)
    as [t | t | e t | t].
  2: { destruct Hshape as [out [c [s ->]]].
       apply guarded_show_current_track. split.
       - simpl. rewrite map_app, out_term_commands. simpl. lia.
       - intros u [Hin | Hin]; [discriminate |].
         rewrite map_app in Hin. apply in_app_or in Hin.
         destruct Hin as [Hin | [Hin | []]];
           [now apply in_out_term in Hin |].
         inversion Hin. discriminate. }
  all: destruct Hshape as [[out ->] | [s ->]]; split; simpl;
    try rewrite no_command_in_terminal_output; simpl; try lia;
    intros u [Hin | Hin]; try discriminate;
    try (now apply in_out_term in Hin);
    destruct Hin as [Hin | []]; discriminate.
Qed.

Lemma guarded_quickplay (w : world) (search_terms : list string)
  (search_type : string) :
  guarded (trace (quickplay w search_terms search_type)).
Proof.
  unfold quickplay, search_and_get_uri. rewrite search_and_get_uri_of_head.
  destruct (spotify_search w _ _ _) as [| it rest].
  - split; simpl; [lia |].
    intros u [Hin | [Hin | []]]; discriminate.
  - destruct (uri it) as [| c s] eqn:Huri.
    + split; simpl; [lia |].
      intros u [Hin | [Hin | []]]; discriminate.
    + apply guarded_show_current_track. split; simpl; [lia |].
      intros u [Hin | [Hin | []]]; [discriminate |].
      inversion Hin. discriminate.
Qed.


(** X14: whatever the command line, the world and the keys typed, [main]
    calls the player's control interface at most once (one of [Previous],
    [PlayPause], [Pause], [Next], [OpenUri]), and it never calls [OpenUri]
    with an empty string: an empty identifier counts as no result. *)
Theorem main_sends_at_most_one_command
  (pretty_list : list (list string) -> Z -> string) (w : world)
  (args : arguments) (input : list ascii) :
  (List.length
     (filter is_player_command (trace (main pretty_list w args input)))
   <= 1)%nat /\
  forall u, In (Out (OpenUri u)) (trace (main pretty_list w args input)) ->
            u <> "".
Proof.
  change (guarded (trace (main pretty_list w args input))).
  assert (Hnone : guarded []) by (split; simpl; [lia | tauto]).
  assert (Hone : forall e, (forall u, e <> Out (OpenUri u)) -> guarded [e]).
  { intros e He. split; [simpl; destruct (is_player_command e); simpl; lia |].
    intros u [Hin | []]. now apply He in Hin. }
  unfold main. destruct (connected w); cbn [negb].
  2: { unfold offer_launch.
       destruct input as [| c rest]; [| destruct (Ascii.eqb c "y")];
       (split; simpl; [lia |]); intros u Hin;
       repeat (destruct Hin as [Hin | Hin]; [discriminate |]); contradiction. }
  destruct (arg_prev args);
    [apply guarded_show_current_track, Hone; discriminate |].
  destruct (arg_play args); [apply Hone; discriminate |].
  destruct (arg_pause args); [apply Hone; discriminate |].
  destruct (arg_next args);
    [apply guarded_show_current_track, Hone; discriminate |].
  destruct (arg_save args); [exact Hnone |].
  destruct (arg_vol args);
    [destruct (arg_up args); apply Hone; discriminate |].
  destruct (arg_search args); [apply guarded_search_branch |].
  destruct (arg_song args); [apply guarded_quickplay |].
  destruct (arg_artist args); [apply guarded_quickplay |].
  destruct (arg_album args); [apply guarded_quickplay |].
  now apply guarded_show_current_track.
Qed.

(** X13: when the player cannot be reached, no command takes effect,
    whatever the command line: nothing is sent to the player ([Previous],
    [PlayPause], [Pause], [Next], [OpenUri]), the volume is not touched,
    nothing is searched and no metadata is read.  The only call to the
    outside is the launch of the client, made exactly when the first key
    typed is [y]; and [main] does not raise. *)
Theorem unreachable_player_only_offers_launch
  (pretty_list : list (list string) -> Z -> string) (w : world)
  (args : arguments) (input : list ascii) :
  connected w = false ->
  filter is_outside_call (trace (main pretty_list w args input)) =
  match input with
  | c :: _ =>
      if Ascii.eqb c "y"%char
      then [System "spotify --minimized & > /dev/null"]
      else []
  | [] => []
  end /\
  filter is_player_command (trace (main pretty_list w args input)) = [] /\
  (forall u, ~ In (Out (OpenUri u)) (trace (main pretty_list w args input))) /\
  (forall e t, main pretty_list w args input <> Failed e t).
Proof.
  intros Hoff. unfold main. rewrite Hoff. cbn [negb]. unfold offer_launch.
  destruct input as [| c rest]; [| destruct (Ascii.eqb c "y")];
    (split; [reflexivity |]); (split; [reflexivity |]);
    (split; [| discriminate]);
    intros u Hin; simpl in Hin;
    repeat (destruct Hin as [Hin | Hin]; [discriminate |]); exact Hin.
Qed.

Lemma unreachable_player_only_offers_launch_witness :
  connected world_unreachable = false /\
  filter is_outside_call
    (trace (main show_index world_unreachable vol_up_arguments ["n"%char])) =
  [] /\
  filter is_player_command
    (trace (main show_index world_unreachable vol_up_arguments ["n"%char])) =
  [] /\
  (forall u,
      ~ In (Out (OpenUri u))
          (trace (main show_index world_unreachable vol_up_arguments
                    ["n"%char]))) /\
  (forall e t,
      main show_index world_unreachable vol_up_arguments ["n"%char] <>
      Failed e t).
Proof.
  split; [reflexivity |].
  apply (unreachable_player_only_offers_launch show_index world_unreachable
           vol_up_arguments ["n"%char]).
  reflexivity.
Defined.

(** X15: [spo search], end to end: if the answer to the search yields the
    model [m], then [i] presses of the down key and the confirm key make
    [main] open the [i]-th identifier of [m] (when it is not the empty
    string) after the picker's output, and go on to display the current
    track. *)
Theorem search_selection_is_opened
  (pretty_list : list (list string) -> Z -> string) (w : world)
  (args : arguments) (m : ResultModel) (i : nat) (id : string) :
  connected w = true ->
  arg_prev args || arg_play args || arg_pause args || arg_next args
    || arg_save args || arg_vol args = false ->
  arg_search args = true ->
  get_search_result_dict
    (spotify_search w (join " " (arg_search_terms args))
       (LimitArg (arg_num args)) "track") "tracks" = Ok (Some m) ->
  nth_error (OrderedDict.keys m) i = Some id ->
  id <> "" ->
  exists out,
    main pretty_list w args (repeat key_j i ++ [key_cr]) =
    show_current_track (player_metadata w)
      (Search (join " " (arg_search_terms args)) (LimitArg (arg_num args))
         "track"
       :: map Out (map Term out) ++ [Out (OpenUri id)]).
Proof.
  intros Hon Hflags Hsearch Hbuild Hnth Hid.
  apply orb_false_iff in Hflags. destruct Hflags as [Hflags Hvol].
  apply orb_false_iff in Hflags. destruct Hflags as [Hflags Hsave].
  apply orb_false_iff in Hflags. destruct Hflags as [Hflags Hnext].
  apply orb_false_iff in Hflags. destruct Hflags as [Hflags Hpause].
  apply orb_false_iff in Hflags. destruct Hflags as [Hprev Hplay].
  assert (Hlt : (i < List.length m)%nat).
  { rewrite <- (length_map fst). apply nth_error_Some.
    unfold OrderedDict.keys in Hnth. congruence. }
  destruct (downs_reach pretty_list m (len m) i Hlt) as [out0 Hdown].
  assert (Hpick : let_user_scroll pretty_list m (len m)
                    (repeat key_j i ++ [key_cr]) =
                  Returned (Some id)
                    (out0 ++ [Reprint ""; Moveup (len m + 10)])).
  { rewrite (run_app _ _ _ _ [key_cr] _ _ Hdown). cbn [scroll_loop].
    rewrite body_confirm. unfold identifierAt.
    now rewrite (subscript_nth _ _ _ Hnth). }
  exists (out0 ++ [Reprint ""; Moveup (len m + 10)])%list. unfold main.
  rewrite Hon, Hprev, Hplay, Hpause, Hnext, Hsave, Hvol, Hsearch. cbn [negb].
  unfold search_branch, main_search, main_search_with.
  change (drop_last "tracks") with "track".
  rewrite Hbuild.
  rewrite (truthy_nonempty _ (model_nonempty _ _ _ tracks_in_kinds Hbuild)).
  rewrite Hpick.
  destruct id as [| c s]; [congruence |].
  now rewrite map_app.
Qed.

Lemma search_selection_is_opened_witness :
  connected world_ABC = true /\
  get_search_result_dict
    (spotify_search world_ABC (join " " ["abc"]) (LimitArg "10") "track")
    "tracks" = Ok (Some model_ABC) /\
  nth_error (OrderedDict.keys model_ABC) 2 = Some "spotify:track:C" /\
  "spotify:track:C" <> "" /\
  exists out,
    main show_index world_ABC (search_arguments ["abc"])
      (repeat key_j 2 ++ [key_cr]) =
    show_current_track (player_metadata world_ABC)
      (Search (join " " ["abc"]) (LimitArg "10") "track"
       :: map Out (map Term out) ++ [Out (OpenUri "spotify:track:C")]).
Proof.
  split; [reflexivity |].
  split; [reflexivity |].
  split; [reflexivity |].
  split; [discriminate |].
  apply (search_selection_is_opened show_index world_ABC
           (search_arguments ["abc"]) model_ABC 2 "spotify:track:C");
    try reflexivity.
  discriminate.
Defined.

(** X16: the display of the current track raises exactly when the player
    reports an artist list that is empty: [IndexError], after the delay,
    the query and the [Song] line only.  In every other case three lines
    are printed, each settled by its own key: a title [t] gives
    [Song:<tab>t], a first artist [a] gives [Artist:<tab>a], an album [t]
    gives [Album:<tab>t], and a key the player does not report gives the
    bare word [Unknown], without its label, whatever the other two keys
    are. *)
Theorem current_track_display (md : metadata) (before : list effect) :
  (xesam_artist md = Some [] <->
   exists e t, show_current_track md before = Failed e t) /\
  (xesam_artist md = Some [] ->
   exists l1,
     show_current_track md before =
     Failed IndexError (before ++ [Sleep 500; GetMetadata; Out (Print l1)]) /\
     (xesam_title md = None -> l1 = "Unknown") /\
     (forall t, xesam_title md = Some t -> l1 = "Song:" ++ tab ++ t)) /\
  (xesam_artist md <> Some [] ->
   exists l1 l2 l3,
     show_current_track md before =
     Done (before ++
           [Sleep 500; GetMetadata; Out (Print l1); Out (Print l2);
            Out (Print l3)]) /\
     (xesam_title md = None -> l1 = "Unknown") /\
     (forall t, xesam_title md = Some t -> l1 = "Song:" ++ tab ++ t) /\
     (xesam_artist md = None -> l2 = "Unknown") /\
     (forall a rest,
         xesam_artist md = Some (a :: rest) -> l2 = "Artist:" ++ tab ++ a) /\
     (xesam_album md = None -> l3 = "Unknown") /\
     (forall t, xesam_album md = Some t -> l3 = "Album:" ++ tab ++ t)).
Proof.
  unfold show_current_track.
  destruct md as [title artist album_].
  cbn [xesam_title xesam_artist xesam_album].
  destruct artist as [[| a l] |].
  - split; [| split].
    + split; [intros _; do 2 eexists; reflexivity | intros _; reflexivity].
    + intros _. eexists. split; [reflexivity |].
      split; [intros -> | intros t ->]; reflexivity.
    + congruence.
  - unfold bind. rewrite subscript_head.
    split; [| split].
    + split; [discriminate | intros [e [t H]]; discriminate].
    + discriminate.
    + intros _. do 3 eexists. split; [reflexivity |].
      repeat split; try discriminate.
      * intros ->. reflexivity.
      * intros t ->. reflexivity.
      * intros a' rest H. inversion H; subst. reflexivity.
      * intros ->. reflexivity.
      * intros t ->. reflexivity.
  - split; [| split].
    + split; [discriminate | intros [e [t H]]; discriminate].
    + discriminate.
    + intros _. do 3 eexists. split; [reflexivity |].
      repeat split; try discriminate.
      * intros ->. reflexivity.
      * intros t ->. reflexivity.
      * intros ->. reflexivity.
      * intros t ->. reflexivity.
Qed.

Lemma current_track_display_witness :
  xesam_artist (player_metadata world_ABC) <> Some [] /\
  exists l1 l2 l3,
    show_current_track (player_metadata world_ABC) [Next] =
    Done ([Next] ++
          [Sleep 500; GetMetadata; Out (Print l1); Out (Print l2);
           Out (Print l3)]) /\
    (xesam_title (player_metadata world_ABC) = None -> l1 = "Unknown") /\
    (forall t, xesam_title (player_metadata world_ABC) = Some t ->
               l1 = "Song:" ++ tab ++ t) /\
    (xesam_artist (player_metadata world_ABC) = None -> l2 = "Unknown") /\
    (forall a rest,
        xesam_artist (player_metadata world_ABC) = Some (a :: rest) ->
        l2 = "Artist:" ++ tab ++ a) /\
    (xesam_album (player_metadata world_ABC) = None -> l3 = "Unknown") /\
    (forall t, xesam_album (player_metadata world_ABC) = Some t ->
               l3 = "Album:" ++ tab ++ t).
Proof.
  assert (Hartist : xesam_artist (player_metadata world_ABC) <> Some [])
    by discriminate.
  split; [exact Hartist |].
  apply (proj2 (proj2 (current_track_display (player_metadata world_ABC)
                         [Next])) Hartist).
Defined.

(* ================================================================= *)
(** ** [main] at work *)

Example spo_without_arguments :
  main show_index world_ABC no_arguments [] =
  Done [ Sleep 500; GetMetadata;
         Out (Print ("Song:" ++ tab ++ "first"));
         Out (Print "Unknown");
         Out (Print ("Album:" ++ tab ++ "p")) ].
Proof. reflexivity. Qed.

Example spo_vol_up :
  main show_index world_ABC vol_up_arguments [] = Done [System VOL_UP].
Proof. reflexivity. Qed.

Example spo_vol_up_without_player :
  main show_index world_unreachable vol_up_arguments ["y"%char] =
  Done [ Out (Print "Error: cannot connect to spotify");
         Out (Print "Would you like to launch spotify client? (y/n)");
         Out (Print "launching spotify...");
         System "spotify --minimized & > /dev/null";
         Out (Print "spotify launched successfully") ].
Proof. reflexivity. Qed.

Example spo_search_down_confirm :
  main show_index world_ABC (search_arguments ["abc"; "def"])
    [key_j; key_cr] =
  Done [ Search "abc def" (LimitArg "10") "track";
         Out (Term (Reprint "0")); Out (Term (Reprint "1"));
         Out (Term (Reprint "")); Out (Term (Moveup 13));
         Out (OpenUri "spotify:track:B");
         Sleep 500; GetMetadata;
         Out (Print ("Song:" ++ tab ++ "first"));
         Out (Print "Unknown");
         Out (Print ("Album:" ++ tab ++ "p")) ].
Proof. reflexivity. Qed.

Example spo_artist_quickplay :
  quickplay world_ABC ["abc"] "artists" =
  Done [ Search "abc" (LimitInt 1) "artist";
         Out (OpenUri "spotify:track:A");
         Sleep 500; GetMetadata;
         Out (Print ("Song:" ++ tab ++ "first"));
         Out (Print "Unknown");
         Out (Print ("Album:" ++ tab ++ "p")) ].
Proof. reflexivity. Qed.
